(** * health-checker: a shallow embedding of [checker/checker.go] and of the
    command-line front end, with the properties of the checking engine.

    Conventions.
    - Go [int] and [time.Duration] are 64-bit signed integers; they are
      modelled as [Z], and the arithmetic on durations is wrapped with
      [wrap64].  Durations and instants are in nanoseconds.  Counters that
      are bounded by a length or by [Retries] (the loop index, the success
      and error counts) are not wrapped: [Retries] is taken below the
      largest [int].  The counter of a [sync.WaitGroup] is a 32-bit signed
      integer and is wrapped with [wrap32].
    - Go strings are byte sequences: [string].
    - A nil [error] is [None]; a non-nil one is [Some msg] where [msg] is what
      its [Error()] method returns.
    - A run-time panic is an explicit constructor of the result type. *)

From Stdlib Require Import ZArith Lia Bool List String Ascii Floats.
From stdpp Require Import base tactics option list.
Import ListNotations.

Local Open Scope string_scope.
Local Open Scope list_scope.
Local Open Scope Z_scope.

(** ** Machine integers *)

Definition int64_min : Z := - 2 ^ 63.
Definition int64_max : Z := 2 ^ 63 - 1.

(** Two's complement wrap-around of a 64-bit signed operation. *)
Definition wrap64 (z : Z) : Z := (z + 2 ^ 63) mod 2 ^ 64 - 2 ^ 63.

Definition in_int64 (z : Z) : Prop := int64_min <= z <= int64_max.

Definition int32_max : Z := 2 ^ 31 - 1.

(** Two's complement wrap-around of a 32-bit signed operation. *)
Definition wrap32 (z : Z) : Z := (z + 2 ^ 31) mod 2 ^ 32 - 2 ^ 31.

(** ** Durations ([time] package constants) *)

Definition Millisecond : Z := 1000000.
Definition Second : Z := 1000000000.

(** ** Data model (checker.go, lines 19-46) *)

(** [type Result struct]; the field [Retries] of the source is [Retries] here
    too, the one of [Config] lives in the module [Cfg]. *)
Record Result := mkResult {
  URL : string;
  Status : string;
  StatusCode : Z;
  Error : string;
  Duration : Z;
  Timestamp : Z;
  Retries : Z
}.

Module Cfg.
(** [type Config struct] *)
Record Config := mk {
  Timeout : Z;
  Concurrency : Z;
  Retries : Z;
  UserAgent : string
}.
End Cfg.
Abbreviation Config := Cfg.Config.

(** Outcome of a Go call that may panic. *)
Inductive Go (A : Type) : Type :=
| Ok (a : A)
| Panic (msg : string).
Arguments Ok {A} a.
Arguments Panic {A} msg.

(** ** Endpoint normaliser (checker.go, lines 184-190) *)

(** [strings.HasPrefix(s, prefix)] *)
Definition HasPrefix (s pre : string) : bool := String.prefix pre s.

Definition normalizeURL (url : string) : string :=
  if negb (HasPrefix url "http://") && negb (HasPrefix url "https://")
  then ("https://" ++ url)%string
  else url.

(** ** Single-check executor (checker.go, lines 74-136) *)

(** What one iteration of the retry loop meets.  The three cases are the three
    ways through the loop body: [http.NewRequestWithContext] returns an error,
    [hc.client.Do] returns an error, [hc.client.Do] returns a response. *)
Inductive Attempt : Type :=
| RequestError (err : string)
| TransportError (err : string)
| Response (code : Z).

(** The network as one check sees it through the context its requests are
    built with: what attempt number [i] meets, and how long [hc.client.Do]
    takes. *)
Record Net := mkNet {
  outcome : Z -> Attempt;
  latency : Z -> Z
}.

(** Observable effects of one check, in program order. *)
Inductive Event : Type :=
| EvAttempt (attempt : Z)   (* one iteration of the retry loop is entered *)
| EvSleep (d : Z).          (* [time.Sleep(d)] *)

(** The part of the world a check reads and writes: the clock and the log of
    its own effects. *)
Record World := mkWorld {
  clock : Z;
  trace : list Event
}.

Definition emit (e : Event) (w : World) : World :=
  {| clock := clock w; trace := trace w ++ [e] |}.

(** Time passes: a call that takes [d] nanoseconds ([d <= 0] takes none). *)
Definition elapse (d : Z) (w : World) : World :=
  {| clock := clock w + Z.max 0 d; trace := trace w |}.

(** [time.Sleep(d)] *)
Definition Sleep (d : Z) (w : World) : World := elapse d (emit (EvSleep d) w).

(** [time.Since(start)]: [Time.Sub] saturates at the ends of [Duration]. *)
Definition Since (start : Z) (w : World) : Z :=
  Z.max int64_min (Z.min int64_max (clock w - start)).

(** The linear back-off of line 103:
    [time.Duration(attempt+1) * 500 * time.Millisecond]. *)
Definition backoff (attempt : Z) : Z := wrap64 ((attempt + 1) * 500 * Millisecond).

Section Executor.
Variable cfg : Config.
Variable net : Net.
Variable url : string.
Variable start : Z.

(** The [for attempt := 0; attempt <= hc.config.Retries; attempt++] loop.
    [n] is the number of iterations left, [Retries + 1 - attempt].  The loop
    either returns a [Result] from inside its body ([inl]) or runs to its
    end and leaves [lastErr] ([inr]).  Setting the header of the request,
    reading up to 4096 bytes of the body and closing it do not show in the
    [Result] and are left out. *)
Fixpoint retryLoop (n : nat) (attempt : Z) (lastErr : option string) (w : World)
  : (Result + option string) * World :=
  match n with
  | O => (inr lastErr, w)
  | S n' =>
      let w := emit (EvAttempt attempt) w in
      match outcome net attempt with
      | RequestError err =>
          retryLoop n' (attempt + 1) (Some err) w
      | TransportError err =>
          let w := elapse (latency net attempt) w in
          if (attempt =? Cfg.Retries cfg)%Z then
            (inl {| URL := url; Status := "error"; StatusCode := 0;
                    Error := err; Duration := Since start w;
                    Timestamp := clock w; Retries := attempt |}, w)
          else
            retryLoop n' (attempt + 1) (Some err) (Sleep (backoff attempt) w)
      | Response code =>
          let w := elapse (latency net attempt) w in
          let status := if (code >=? 400)%Z then "error" else "success" in
          (inl {| URL := url; Status := status; StatusCode := code;
                  Error := ""; Duration := Since start w;
                  Timestamp := clock w; Retries := attempt |}, w)
      end
  end.
End Executor.

(** Number of iterations of the loop for a given [Retries]. *)
Definition iterations (cfg : Config) : nat := Z.to_nat (Cfg.Retries cfg + 1).

(** [func (hc *HealthChecker) checkURL(ctx, url) Result].  The return after
    the loop calls [lastErr.Error()], which panics when [lastErr] is nil.
    The context goes into every request the check builds (line 82) and into
    nothing else: the check meets the network [net] that the requests built
    with its context see. *)
Definition checkURL (cfg : Config) (net : Net) (url : string) (w : World)
  : Go Result * World :=
  let start := clock w in
  match retryLoop cfg net url start (iterations cfg) 0 None w with
  | (inl r, w') => (Ok r, w')
  | (inr (Some err), w') =>
      (Ok {| URL := url; Status := "error"; StatusCode := 0;
             Error := err; Duration := Since start w';
             Timestamp := clock w'; Retries := Cfg.Retries cfg |}, w')
  | (inr None, w') =>
      (Panic "runtime error: invalid memory address or nil pointer dereference", w')
  end.

(** A world in which nothing has happened yet. *)
Definition world0 (t : Z) : World := {| clock := t; trace := [] |}.

(** The attempts a check performed: the iterations of its loop. *)
Definition is_attempt (e : Event) : bool :=
  match e with EvAttempt _ => true | EvSleep _ => false end.

Definition attempts (w : World) : Z :=
  Z.of_nat (length (List.filter is_attempt (trace w))).


(** Sample policies and networks. *)

Definition policy (retries : Z) : Config :=
  {| Cfg.Timeout := 10 * Second; Cfg.Concurrency := 5;
     Cfg.Retries := retries; Cfg.UserAgent := "HealthChecker/1.0" |}.

Definition always (a : Attempt) : Net := {| outcome := fun _ => a; latency := fun _ => 0 |}.
Definition fail_once_then (a : Attempt) : Net :=
  {| outcome := fun i => if (i =? 0)%Z then TransportError "connection refused" else a;
     latency := fun _ => 7 * Millisecond |}.


(** ** Statistics (checker.go, lines 276-305) *)

(** [Duration.Round(m)] of the [time] package: round half away from zero to a
    multiple of [m]. *)
Definition Round (d m : Z) : Z :=
  if m <=? 0 then d
  else
    let r := Z.rem d m in
    if d <? 0 then
      let r := - r in
      if 2 * r <? m then wrap64 (d + r)
      else
        let d1 := wrap64 (d - m + r) in
        if d1 <? d then d1 else int64_min
    else
      if 2 * r <? m then wrap64 (d - r)
      else
        let d1 := wrap64 (d + m - r) in
        if d1 >? d then d1 else int64_max.

(** [float64(n)] for a count [n >= 0]. *)
Definition float64 (n : Z) : float := PrimFloat.of_uint63 (Uint63.of_Z n).

(** What [PrintStats] hands to its [Printf] calls, in order. *)
Record Stats := mkStats {
  checks : Z;              (* [len(results)] *)
  successCount : Z;
  errorCount : Z;
  avgTime : Z;             (* [avgTime.Round(time.Millisecond)] *)
  totalTime : Z;           (* [totalTime.Round(time.Millisecond)] *)
  successRate : float      (* printed with [%.1f%%] *)
}.

(** The accumulation loop: [(totalTime, successCount, errorCount)]. *)
Definition tally (acc : Z * Z * Z) (r : Result) : Z * Z * Z :=
  let '(total, ok, bad) := acc in
  let total := wrap64 (total + Duration r) in
  if String.eqb (Status r) "success" then (total, ok + 1, bad)
  else (total, ok, bad + 1).

(** [func PrintStats(results []Result)]; [None] when nothing is printed. *)
Definition PrintStats (results : list Result) : option Stats :=
  if (length results =? 0)%nat then None
  else
    let '(total, ok, bad) := fold_left tally results (0, 0, 0) in
    let n := Z.of_nat (length results) in
    let avg := Z.quot total n in
    Some {| checks := n;
            successCount := ok;
            errorCount := bad;
            avgTime := Round avg Millisecond;
            totalTime := Round total Millisecond;
            successRate := (float64 ok / float64 n * 100)%float |}.

(** ** Channels *)

(** A Go channel with a buffer.  A channel made with capacity 0 hands a value
    over only to a receiver that is waiting; the two channels that can have
    capacity 0 here ([urlChan] for an empty list, [semaphore] for
    [Concurrency = 0]) are never sent to in that case, so the buffer alone is
    modelled and a send to a full buffer blocks. *)
Record Chan (A : Type) := mkChan {
  buf : list A;
  cap : nat;
  closed : bool
}.
Arguments mkChan {A}.
Arguments buf {A}.
Arguments cap {A}.
Arguments closed {A}.

(** Outcome of one channel operation attempted by a goroutine. *)
Inductive Op (A : Type) : Type :=
| Done (a : A)
| Blocked
| Panics (msg : string).
Arguments Done {A} a.
Arguments Blocked {A}.
Arguments Panics {A} msg.

(** [make(chan A, n)] *)
Definition make {A} (n : nat) : Chan A := {| buf := []; cap := n; closed := false |}.

(** [c <- x] *)
Definition send {A} (c : Chan A) (x : A) : Op (Chan A) :=
  if closed c then Panics "send on closed channel"
  else if (length (buf c) <? cap c)%nat
       then Done {| buf := buf c ++ [x]; cap := cap c; closed := false |}
       else Blocked.

(** [x, ok := <-c]; [None] is [ok = false]: closed and drained. *)
Definition recv {A} (c : Chan A) : Op (option A * Chan A) :=
  match buf c with
  | x :: rest => Done (Some x, {| buf := rest; cap := cap c; closed := closed c |})
  | [] => if closed c then Done (None, c) else Blocked
  end.

(** [close(c)] *)
Definition close {A} (c : Chan A) : Op (Chan A) :=
  if closed c then Panics "close of closed channel"
  else Done {| buf := buf c; cap := cap c; closed := true |}.

(** ** Construction (checker.go, lines 48-72) *)

(** [wg.Add(delta)] of [sync.WaitGroup], on the counter alone.  The wait
    group keeps its counter in the upper 32 bits of one 64-bit word and adds
    [uint64(delta) << 32] to it, so that the counter is a 32-bit signed
    integer to which [delta] is added modulo [2^32]; a counter that comes out
    negative is a panic.  [wg.Done()] is [wg.Add(-1)].  The result is the new
    counter and the panic, if there is one.  The two panics with which [Add]
    reports that it ran while a goroutine was in [wg.Wait()] are left out:
    [CheckAll] calls [Add] before it starts the goroutine that waits, and as
    long as the counter is the number of workers that are left, the [Done]
    that brings it to zero is the last one. *)
Definition wg_Add (counter delta : Z) : Z * option string :=
  let v := wrap32 (counter + delta) in
  (v, if v <? 0 then Some "sync: negative WaitGroup counter" else None).

(** [type HealthChecker struct]: the configuration, the client's timeout,
    the two channels and the counter of the wait group. *)
Record HealthChecker := mkHC {
  config : Config;
  client_Timeout : Z;
  semaphore : Chan unit;
  results : Chan Result;
  wg : Z
}.

Definition defaultConfig : Config :=
  {| Cfg.Timeout := 10 * Second; Cfg.Concurrency := 5;
     Cfg.Retries := 1; Cfg.UserAgent := "HealthChecker/1.0" |}.

(** [func NewHealthChecker(config *Config) *HealthChecker]; [None] is the nil
    pointer.  [make(chan struct{}, n)] panics for [n < 0]. *)
Definition NewHealthChecker (config : option Config) : Go HealthChecker :=
  let config := match config with None => defaultConfig | Some c => c end in
  if Cfg.Concurrency config <? 0 then Panic "makechan: size out of range"
  else Ok {| config := config;
             client_Timeout := Cfg.Timeout config;
             semaphore := make (Z.to_nat (Cfg.Concurrency config));
             results := make 100;
             wg := 0 |}.

(** ** Command-line front end ([package main]) *)

(** What [main] does once the flags are parsed and the URL list is read: the
    usage message and [os.Exit(1)] for an empty list, the checks otherwise. *)
Inductive MainAction : Type :=
| UsageExit (code : Z)
| RunChecks (cfg : Config) (urls : list string).

Definition main (urls : list string) (timeout concurrent retries : Z) : MainAction :=
  if (length urls =? 0)%nat then UsageExit 1
  else RunChecks {| Cfg.Timeout := timeout; Cfg.Concurrency := concurrent;
                    Cfg.Retries := retries; Cfg.UserAgent := "HealthChecker/1.0" |}
                 urls.

(** ** Contexts ([context] package) *)

(** The contexts this program builds: [context.Background()] and what
    [context.WithTimeout] derives from a context. *)
Inductive Context : Type :=
| Background
| WithDeadline (parent : Context) (d : Z).

(** [ctx.Deadline()]: a derived context expires no later than its parent. *)
Fixpoint Deadline (c : Context) : option Z :=
  match c with
  | Background => None
  | WithDeadline parent d =>
      match Deadline parent with
      | Some d' => Some (Z.min d d')
      | None => Some d
      end
  end.

(** [context.WithTimeout(parent, d)] at instant [now].  It also returns the
    function that cancels the context, which [CheckAll] defers to its return
    (line 152).  What an expired or cancelled context does to a request is
    part of the network the request meets. *)
Definition WithTimeout (parent : Context) (now d : Z) : Context :=
  WithDeadline parent (now + d).

(** ** Bounded-concurrency scheduler (checker.go, lines 138-182) *)

(** Where a worker goroutine stands in

      for url := range urls {
        hc.semaphore <- struct{}{}
        result := hc.checkURL(ctx, url)
        hc.results <- result
        <-hc.semaphore
      }
*)
Inductive Worker : Type :=
| WIdle                      (* at [range urls]: about to receive *)
| WAcquire (url : string)    (* at [hc.semaphore <- struct{}{}] *)
| WCheck (url : string)      (* inside [hc.checkURL(ctx, url)] *)
| WSend (r : Result)         (* at [hc.results <- result] *)
| WRelease                   (* at [<-hc.semaphore] *)
| WDone.                     (* returned; the deferred [hc.wg.Done()] has run *)

(** The goroutine of lines 164-169: the URLs still to send. *)
Inductive Sender : Type :=
| SNotStarted
| SSending (rest : list string)
| SDone.

(** The goroutine of lines 172-175. *)
Inductive Closer : Type :=
| CNotStarted
| CWaiting                   (* at [hc.wg.Wait()], then [close(hc.results)] *)
| CDone.

(** Where the goroutine that called [CheckAll] stands. *)
Inductive MainPc : Type :=
| MSpawnWorkers (i : Z)      (* the loop of lines 159-161 *)
| MSpawnCloser               (* the sender is started, the closer is not *)
| MCollect                   (* the loop of lines 177-179 *)
| MReturned.                 (* [return allResults] *)

(** The shared state of one [CheckAll] call and the position of every
    goroutine it started. *)
Record State := mkState {
  ctx : Context;                   (* handed to every worker *)
  hc : HealthChecker;
  urlChan : Chan string;
  workers : list Worker;
  sender : Sender;
  closer : Closer;
  pc : MainPc;
  allResults : list Result;
  panicked : option string         (* a panic ends the process *)
}.

Definition set_hc (h : HealthChecker) (s : State) : State :=
  mkState (ctx s) h (urlChan s) (workers s) (sender s) (closer s) (pc s)
          (allResults s) (panicked s).
Definition set_urlChan (c : Chan string) (s : State) : State :=
  mkState (ctx s) (hc s) c (workers s) (sender s) (closer s) (pc s)
          (allResults s) (panicked s).
Definition set_workers (ws : list Worker) (s : State) : State :=
  mkState (ctx s) (hc s) (urlChan s) ws (sender s) (closer s) (pc s)
          (allResults s) (panicked s).
Definition set_sender (x : Sender) (s : State) : State :=
  mkState (ctx s) (hc s) (urlChan s) (workers s) x (closer s) (pc s)
          (allResults s) (panicked s).
Definition set_closer (x : Closer) (s : State) : State :=
  mkState (ctx s) (hc s) (urlChan s) (workers s) (sender s) x (pc s)
          (allResults s) (panicked s).
Definition set_pc (x : MainPc) (s : State) : State :=
  mkState (ctx s) (hc s) (urlChan s) (workers s) (sender s) (closer s) x
          (allResults s) (panicked s).
Definition set_allResults (rs : list Result) (s : State) : State :=
  mkState (ctx s) (hc s) (urlChan s) (workers s) (sender s) (closer s) (pc s)
          rs (panicked s).
Definition panic (msg : string) (s : State) : State :=
  mkState (ctx s) (hc s) (urlChan s) (workers s) (sender s) (closer s) (pc s)
          (allResults s) (Some msg).

Definition set_semaphore (c : Chan unit) (s : State) : State :=
  set_hc (mkHC (config (hc s)) (client_Timeout (hc s)) c (results (hc s)) (wg (hc s))) s.
Definition set_results (c : Chan Result) (s : State) : State :=
  set_hc (mkHC (config (hc s)) (client_Timeout (hc s)) (semaphore (hc s)) c (wg (hc s))) s.
Definition set_wg (n : Z) (s : State) : State :=
  set_hc (mkHC (config (hc s)) (client_Timeout (hc s)) (semaphore (hc s)) (results (hc s)) n) s.
Definition set_worker (i : nat) (w : Worker) (s : State) : State :=
  set_workers (<[i := w]> (workers s)) s.

(** The goroutines of one call. *)
Inductive Thread : Type :=
| TMain
| TSender
| TCloser
| TWorker (i : nat).

(** The state after lines 151-158: the context, made at instant [now] with
    the timeout [hc.config.Timeout*time.Duration(len(urls))], the URL channel
    and [hc.wg.Add(hc.config.Concurrency)]. *)
Definition CheckAll_init (h : HealthChecker) (now : Z) (urls : list string) : State :=
  let n := Z.of_nat (length urls) in
  let '(counter, err) := wg_Add (wg h) (Cfg.Concurrency (config h)) in
  {| ctx := WithTimeout Background now (wrap64 (Cfg.Timeout (config h) * n));
     hc := mkHC (config h) (client_Timeout h) (semaphore h) (results h) counter;
     urlChan := make (length urls);
     workers := [];
     sender := SNotStarted;
     closer := CNotStarted;
     pc := MSpawnWorkers 0;
     allResults := [];
     panicked := err |}.

Section Scheduler.
Variable urls : list string.

(** One step of the goroutine [CheckAll] runs in. *)
Definition step_main (s : State) : option State :=
  match pc s with
  | MSpawnWorkers i =>
      if i <? Cfg.Concurrency (config (hc s))
      then Some (set_pc (MSpawnWorkers (i + 1)) (set_workers (workers s ++ [WIdle]) s))
      else Some (set_pc MSpawnCloser (set_sender (SSending urls) s))
  | MSpawnCloser => Some (set_pc MCollect (set_closer CWaiting s))
  | MCollect =>
      match recv (results (hc s)) with
      | Done (Some r, c) => Some (set_allResults (allResults s ++ [r]) (set_results c s))
      | Done (None, _) => Some (set_pc MReturned s)
      | Blocked => None
      | Panics msg => Some (panic msg s)
      end
  | MReturned => None
  end.

(** One step of the sender: [urlChan <- normalizeURL(url)], or
    [close(urlChan)] after the last one. *)
Definition step_sender (s : State) : option State :=
  match sender s with
  | SSending (url :: rest) =>
      match send (urlChan s) (normalizeURL url) with
      | Done c => Some (set_sender (SSending rest) (set_urlChan c s))
      | Blocked => None
      | Panics msg => Some (panic msg s)
      end
  | SSending [] =>
      match close (urlChan s) with
      | Done c => Some (set_sender SDone (set_urlChan c s))
      | Blocked => None
      | Panics msg => Some (panic msg s)
      end
  | SNotStarted | SDone => None
  end.

(** One step of the closer: [hc.wg.Wait()] returns once the counter is 0. *)
Definition step_closer (s : State) : option State :=
  match closer s with
  | CWaiting =>
      if wg (hc s) =? 0 then
        match close (results (hc s)) with
        | Done c => Some (set_closer CDone (set_results c s))
        | Blocked => None
        | Panics msg => Some (panic msg s)
        end
      else None
  | CNotStarted | CDone => None
  end.

(** One step of worker [i], which was started with the context of the call
    ([go hc.worker(ctx, urlChan)]) and hands it to every check
    ([hc.checkURL(ctx, url)]), where every request is built with it (line
    82).  [net c] is the network as the requests built with context [c] see
    it, and [now] is the instant at which the check starts.  When the URL
    channel is closed and empty the worker returns and its deferred
    [hc.wg.Done()] runs. *)
Definition step_worker (i : nat) (net : Context -> Net) (now : Z) (s : State)
  : option State :=
  match workers s !! i with
  | Some WIdle =>
      match recv (urlChan s) with
      | Done (Some url, c) => Some (set_worker i (WAcquire url) (set_urlChan c s))
      | Done (None, _) =>
          match wg_Add (wg (hc s)) (-1) with
          | (counter, None) => Some (set_worker i WDone (set_wg counter s))
          | (counter, Some msg) => Some (panic msg (set_wg counter s))
          end
      | Blocked => None
      | Panics msg => Some (panic msg s)
      end
  | Some (WAcquire url) =>
      match send (semaphore (hc s)) tt with
      | Done c => Some (set_worker i (WCheck url) (set_semaphore c s))
      | Blocked => None
      | Panics msg => Some (panic msg s)
      end
  | Some (WCheck url) =>
      match fst (checkURL (config (hc s)) (net (ctx s)) url (world0 now)) with
      | Ok r => Some (set_worker i (WSend r) s)
      | Panic msg => Some (panic msg s)
      end
  | Some (WSend r) =>
      match send (results (hc s)) r with
      | Done c => Some (set_worker i WRelease (set_results c s))
      | Blocked => None
      | Panics msg => Some (panic msg s)
      end
  | Some WRelease =>
      match recv (semaphore (hc s)) with
      | Done (_, c) => Some (set_worker i WIdle (set_semaphore c s))
      | Blocked => None
      | Panics msg => Some (panic msg s)
      end
  | Some WDone | None => None
  end.

(** One step of the whole program: goroutine [t] moves, if it can. *)
Definition step (t : Thread) (net : Context -> Net) (now : Z) (s : State)
  : option State :=
  match panicked s with
  | Some _ => None
  | None =>
      match t with
      | TMain => step_main s
      | TSender => step_sender s
      | TCloser => step_closer s
      | TWorker i => step_worker i net now s
      end
  end.

(** The states an execution can pass through. *)
Inductive reachable (s0 : State) : State -> Prop :=
| reach_init : reachable s0 s0
| reach_step s t net now s' :
    reachable s0 s -> step t net now s = Some s' -> reachable s0 s'.

(** Running a schedule: each entry names the goroutine to move, and the
    network and instant a check meets; an entry whose goroutine cannot move
    is skipped. *)
Fixpoint run (sched : list (Thread * (Context -> Net) * Z)) (s : State) : State :=
  match sched with
  | [] => s
  | (t, net, now) :: sched' =>
      match step t net now s with
      | Some s' => run sched' s'
      | None => run sched' s
      end
  end.

(** The value [CheckAll] has returned, if it has. *)
Definition returned (s : State) : option (list Result) :=
  match pc s with
  | MReturned => Some (allResults s)
  | _ => None
  end.
End Scheduler.

(** The checks that are executing: workers inside [checkURL]. *)
Definition in_flight (w : Worker) : nat :=
  match w with WCheck _ => 1 | _ => 0 end.

(** The workers between taking and giving back a slot of the semaphore. *)
Definition holds_slot (w : Worker) : nat :=
  match w with WCheck _ | WSend _ | WRelease => 1 | _ => 0 end.

Definition finished (w : Worker) : nat :=
  match w with WDone => 1 | _ => 0 end.

(** The URL a worker has taken and not yet reported. *)
Definition in_hand (w : Worker) : list string :=
  match w with
  | WAcquire url | WCheck url => [url]
  | WSend r => [URL r]
  | _ => []
  end.

(** ** Vocabulary of the properties *)

(** [s] begins with [pre]. *)
Definition begins_with (pre s : string) : Prop := exists rest, s = (pre ++ rest)%string.

(** An attempt that completes no response. *)
Definition fails (a : Attempt) : Prop :=
  match a with Response _ => False | _ => True end.

(** The error an attempt leaves in [lastErr]. *)
Definition cause (a : Attempt) : option string :=
  match a with
  | RequestError err | TransportError err => Some err
  | Response _ => None
  end.

(** What a failed attempt that is not the last one writes to the log: a
    failure of [hc.client.Do] is followed by the back-off sleep, a failure of
    [http.NewRequestWithContext] is not. *)
Definition retry_events (net : Net) (i : Z) : list Event :=
  match outcome net i with
  | TransportError _ => [EvAttempt i; EvSleep (backoff i)]
  | _ => [EvAttempt i]
  end.




(** The sum of the durations of a list of results. *)
Definition sum_durations (rs : list Result) : Z :=
  foldr (fun r acc => Duration r + acc) 0 rs.

(** The number of results whose status is "success". *)
Definition successes (rs : list Result) : Z :=
  Z.of_nat (length (List.filter (fun r => String.eqb (Status r) "success") rs)).

(** ** Vocabulary of the scheduler's properties *)

Definition spawning (x : MainPc) : bool :=
  match x with MSpawnWorkers _ => true | _ => false end.
Definition collecting (x : MainPc) : bool :=
  match x with MCollect | MReturned => true | _ => false end.
Definition sender_started (x : Sender) : bool :=
  match x with SNotStarted => false | _ => true end.
Definition sender_done (x : Sender) : bool :=
  match x with SDone => true | _ => false end.
Definition closer_started (x : Closer) : bool :=
  match x with CNotStarted => false | _ => true end.
Definition closer_done (x : Closer) : bool :=
  match x with CDone => true | _ => false end.

(** The normalised URLs the sender has still to put on the channel. *)
Definition pending (urls : list string) (x : Sender) : list string :=
  match x with
  | SNotStarted => map normalizeURL urls
  | SSending rest => map normalizeURL rest
  | SDone => []
  end.

(** A bound on the number of steps that are left: every step of every
    goroutine lowers it. *)
Definition worker_weight (w : Worker) : nat :=
  match w with
  | WIdle => 1
  | WAcquire _ => 6
  | WCheck _ => 5
  | WSend _ => 4
  | WRelease => 2
  | WDone => 0
  end.

Definition pc_weight (c : Z) (x : MainPc) : nat :=
  match x with
  | MSpawnWorkers i => 2 * Z.to_nat (c - i) + 3
  | MSpawnCloser => 2
  | MCollect => 1
  | MReturned => 0
  end.

Definition sender_weight (urls : list string) (x : Sender) : nat :=
  match x with
  | SNotStarted => 7 * length urls + 1
  | SSending rest => 7 * length rest + 1
  | SDone => 0
  end.

Definition closer_weight (x : Closer) : nat :=
  match x with CDone => 0 | _ => 1 end.

Definition measure (urls : list string) (s : State) : nat :=
  pc_weight (Cfg.Concurrency (config (hc s))) (pc s) +
  sender_weight urls (sender s) +
  closer_weight (closer s) +
  6 * length (buf (urlChan s)) +
  sum_list_with worker_weight (workers s) +
  length (buf (results (hc s))) +
  match panicked s with Some _ => 0 | None => 1 end.

(** What holds of every state of a call on a fresh [HealthChecker] with
    configuration [cfg] and URL list [urls] when the pool fits the counter of
    the wait group ([Concurrency] from 0 to [int32_max]) and no check
    panics. *)
Record Inv (cfg : Config) (urls : list string) (s : State) : Prop := mkInv {
  inv_config : config (hc s) = cfg;
  inv_panicked : panicked s = None;
  inv_pool :
    match pc s with
    | MSpawnWorkers i =>
        0 <= i <= Cfg.Concurrency cfg /\ Z.of_nat (length (workers s)) = i
    | _ => Z.of_nat (length (workers s)) = Cfg.Concurrency cfg
    end;
  inv_sender : sender_started (sender s) = negb (spawning (pc s));
  inv_closer : closer_started (closer s) = collecting (pc s);
  inv_returned :
    pc s = MReturned -> closer s = CDone /\ buf (results (hc s)) = [];
  inv_wg :
    wg (hc s) + Z.of_nat (sum_list_with finished (workers s)) = Cfg.Concurrency cfg;
  inv_semaphore :
    length (buf (semaphore (hc s))) = sum_list_with holds_slot (workers s) /\
    cap (semaphore (hc s)) = Z.to_nat (Cfg.Concurrency cfg) /\
    closed (semaphore (hc s)) = false;
  inv_urlChan :
    cap (urlChan s) = length urls /\ closed (urlChan s) = sender_done (sender s);
  inv_results :
    cap (results (hc s)) = 100%nat /\
    closed (results (hc s)) = closer_done (closer s) /\
    (closer s = CDone -> wg (hc s) = 0);
  inv_urls :
    pending urls (sender s) ++ buf (urlChan s) ++ flat_map in_hand (workers s) ++
    map URL (buf (results (hc s))) ++ map URL (allResults s)
    ≡ₚ map normalizeURL urls;
  inv_drained :
    (0 < sum_list_with finished (workers s))%nat ->
    closed (urlChan s) = true /\ buf (urlChan s) = [];
  inv_idle :
    workers s = [] -> buf (results (hc s)) = [] /\ allResults s = []
}.

(** What holds of every state of a call on a fresh [HealthChecker] with
    configuration [cfg] and URL list [urls] whatever the configuration is and
    whether or not a goroutine has panicked: where the goroutines stand and
    what the channels hold. *)
Record Shape (cfg : Config) (urls : list string) (s : State) : Prop := mkShape {
  shape_config : config (hc s) = cfg;
  shape_pool :
    match pc s with
    | MSpawnWorkers i =>
        0 <= i <= Cfg.Concurrency cfg /\ Z.of_nat (length (workers s)) = i
    | _ => Z.of_nat (length (workers s)) = Cfg.Concurrency cfg
    end;
  shape_sender : sender_started (sender s) = negb (spawning (pc s));
  shape_closer : closer_started (closer s) = collecting (pc s);
  shape_returned :
    pc s = MReturned -> closer s = CDone /\ buf (results (hc s)) = [];
  shape_semaphore :
    length (buf (semaphore (hc s))) = sum_list_with holds_slot (workers s) /\
    cap (semaphore (hc s)) = Z.to_nat (Cfg.Concurrency cfg) /\
    closed (semaphore (hc s)) = false;
  shape_urlChan :
    cap (urlChan s) = length urls /\ closed (urlChan s) = sender_done (sender s);
  shape_results :
    cap (results (hc s)) = 100%nat /\
    closed (results (hc s)) = closer_done (closer s);
  shape_urls :
    pending urls (sender s) ++ buf (urlChan s) ++ flat_map in_hand (workers s) ++
    map URL (buf (results (hc s))) ++ map URL (allResults s)
    ≡ₚ map normalizeURL urls;
  shape_drained :
    (0 < sum_list_with finished (workers s))%nat ->
    closed (urlChan s) = true /\ buf (urlChan s) = [];
  shape_idle :
    workers s = [] -> buf (results (hc s)) = [] /\ allResults s = []
}.

(** ** Sample schedules *)

(** A network that is the same whatever context a request is built with. *)
Definition regardless (net : Net) : Context -> Net := fun _ => net.

Definition steady (a : Attempt) : Context -> Net := regardless (always a).

(** A network on which, at instant [t], the requests of a context that has
    expired by then fail, and the others meet [net]. *)
Definition expiring (t : Z) (net : Net) : Context -> Net :=
  fun c =>
    match Deadline c with
    | Some d =>
        if d <=? t then always (TransportError "context deadline exceeded") else net
    | None => net
    end.

(** Every goroutine of a pool of [n] workers is offered one move. *)
Definition round (n : nat) (net : Context -> Net) (now : Z)
  : list (Thread * (Context -> Net) * Z) :=
  (TMain, net, now) :: (TSender, net, now) :: (TCloser, net, now) ::
  map (fun i => (TWorker i, net, now)) (seq 0 n).

Definition round_robin (rounds n : nat) (net : Context -> Net) (now : Z)
  : list (Thread * (Context -> Net) * Z) :=
  concat (replicate rounds (round n net now)).

(** The checker [NewHealthChecker] builds for a non-negative [Concurrency]. *)
Definition fresh (cfg : Config) : HealthChecker :=
  {| config := cfg; client_Timeout := Cfg.Timeout cfg;
     semaphore := make (Z.to_nat (Cfg.Concurrency cfg)); results := make 100; wg := 0 |}.

Definition pool (concurrency retries : Z) : Config :=
  {| Cfg.Timeout := 10 * Second; Cfg.Concurrency := concurrency;
     Cfg.Retries := retries; Cfg.UserAgent := "HealthChecker/1.0" |}.

(** A timeout of which two do not fit a [Duration]. *)
Definition long_timeout : Config :=
  {| Cfg.Timeout := 2 ^ 62 + 5 * Second; Cfg.Concurrency := 2;
     Cfg.Retries := 0; Cfg.UserAgent := "HealthChecker/1.0" |}.

(** ** Renderers (checker.go, lines 194-226 and 257-274) *)

(** The colours [PrintTable] picks between ([color.FgGreen], [color.FgRed]). *)
Inductive Colour : Type :=
| FgGreen
| FgRed.

(** The status cell of a table row: [statusColor.Sprintf(r.Status)], which
    takes [r.Status] as its format, and the code that
    [fmt.Sprintf("%s (%d)", statusText, r.StatusCode)] appends when
    [r.StatusCode > 0]. *)
Record StatusText := mkStatusText {
  colour : Colour;
  format : string;
  code_suffix : option Z
}.

(** The arguments of one [tbl.AddRow] call. *)
Record TableRow := mkRow {
  cell_URL : string;
  cell_Status : StatusText;
  cell_Code : Z;
  cell_Duration : Z;         (* [r.Duration.Round(time.Millisecond)] *)
  cell_Retries : Z
}.

Definition table_row (r : Result) : TableRow :=
  let statusColor := if String.eqb (Status r) "error" then FgRed else FgGreen in
  {| cell_URL := URL r;
     cell_Status :=
       {| colour := statusColor; format := Status r;
          code_suffix := if StatusCode r >? 0 then Some (StatusCode r) else None |};
     cell_Code := StatusCode r;
     cell_Duration := Round (Duration r) Millisecond;
     cell_Retries := Retries r |}.

(** [func PrintTable(results []Result)]: the header and the rows handed to the
    table, [None] when it returns without printing. *)
Definition PrintTable (results : list Result) : option (list string * list TableRow) :=
  if (length results =? 0)%nat then None
  else Some (["URL"; "Status"; "Code"; "Duration"; "Retries"], map table_row results).

(** The arguments of the [fmt.Printf] calls of [PrintSimple]. *)
Inductive SimpleLine : Type :=
| Summary (icon url status : string) (took : Z)   (* "%s %s - %s (took %v)\n" *)
| ErrorLine (err : string).                       (* "  Error: %s\n" *)

Definition icon_ok : string := "✓".
Definition icon_error : string := "✗".

Definition simple_lines (r : Result) : list SimpleLine :=
  Summary (if String.eqb (Status r) "error" then icon_error else icon_ok)
          (URL r) (Status r) (Round (Duration r) Millisecond) ::
  (if String.eqb (Error r) "" then [] else [ErrorLine (Error r)]).

(** [func PrintSimple(results []Result)] *)
Definition PrintSimple (results : list Result) : list SimpleLine :=
  flat_map simple_lines results.

(** ** Vocabulary of the further properties *)



(** The two statuses [checkURL] writes. *)
Definition classified (r : Result) : Prop :=
  Status r = "success" \/ Status r = "error".

(** What the attempt a check ended with says about its [Result]. *)
Definition decided_by (cfg : Config) (a : Attempt) (r : Result) : Prop :=
  match a with
  | Response code =>
      StatusCode r = code /\ Error r = "" /\
      Status r = (if code >=? 400 then "error" else "success")
  | TransportError err | RequestError err =>
      Retries r = Cfg.Retries cfg /\ StatusCode r = 0 /\ Error r = err /\
      Status r = "error"
  end.

(** The rows of a table that are shown in red. *)
Definition red_rows (rows : list TableRow) : Z :=
  Z.of_nat (length (List.filter
                      (fun row => match colour (cell_Status row) with
                                  | FgRed => true | FgGreen => false end) rows)).

(** The summary lines of the simple format that carry the error icon. *)
Definition error_icons (ls : list SimpleLine) : Z :=
  Z.of_nat (length (List.filter
                      (fun l => match l with
                                | Summary icon _ _ _ => String.eqb icon icon_error
                                | ErrorLine _ => false end) ls)).

(** The results a goroutine holds or a channel carries. *)
Definition result_in_hand (w : Worker) : list Result :=
  match w with WSend r => [r] | _ => [] end.

Definition results_of (s : State) : list Result :=
  allResults s ++ buf (results (hc s)) ++ flat_map result_in_hand (workers s).

(** The URLs of a call in the order in which they leave it, for a pool of
    one worker: collected, on the result channel, with the worker, on the URL
    channel, still with the sender. *)
Definition pipeline (urls : list string) (s : State) : list string :=
  map URL (allResults s) ++ map URL (buf (results (hc s))) ++
  flat_map in_hand (workers s) ++ buf (urlChan s) ++ pending urls (sender s).

(** [r] is what a check of one of the normalised input URLs returned. *)
Definition checked (cfg : Config) (urls : list string) (r : Result) : Prop :=
  exists net url now,
    url ∈ map normalizeURL urls /\
    fst (checkURL cfg net url (world0 now)) = Ok r.

(** The number of results whose status is "error". *)
Definition errors (rs : list Result) : Z :=
  Z.of_nat (length (List.filter (fun r => String.eqb (Status r) "error") rs)).

(* ================================================================== *)
(** * Properties *)

(** ** The model at work *)

Example normalizeURL_bare : normalizeURL "example.com" = "https://example.com".
Proof. reflexivity. Qed.
Example normalizeURL_http : normalizeURL "http://a.b" = "http://a.b".
Proof. reflexivity. Qed.
Example normalizeURL_upper : normalizeURL "HTTP://a.b" = "https://HTTP://a.b".
Proof. reflexivity. Qed.

Example check_404 :
  checkURL (policy 3) (always (Response 404)) "https://x" (world0 0) =
  (Ok {| URL := "https://x"; Status := "error"; StatusCode := 404; Error := "";
         Duration := 0; Timestamp := 0; Retries := 0 |},
   {| clock := 0; trace := [EvAttempt 0] |}).
Proof. reflexivity. Qed.

Example check_flaky :
  checkURL (policy 1) (fail_once_then (Response 200)) "https://x" (world0 0) =
  (Ok {| URL := "https://x"; Status := "success"; StatusCode := 200; Error := "";
         Duration := 514000000; Timestamp := 514000000; Retries := 1 |},
   {| clock := 514000000; trace := [EvAttempt 0; EvSleep 500000000; EvAttempt 1] |}).
Proof. reflexivity. Qed.

Example check_dead :
  checkURL (policy 2) (always (TransportError "refused")) "https://x" (world0 0) =
  (Ok {| URL := "https://x"; Status := "error"; StatusCode := 0; Error := "refused";
         Duration := 1500000000; Timestamp := 1500000000; Retries := 2 |},
   {| clock := 1500000000;
      trace := [EvAttempt 0; EvSleep 500000000; EvAttempt 1; EvSleep 1000000000; EvAttempt 2] |}).
Proof. reflexivity. Qed.

Example check_malformed :
  checkURL (policy 1) (always (RequestError "invalid URL")) "https://%zz" (world0 0) =
  (Ok {| URL := "https://%zz"; Status := "error"; StatusCode := 0; Error := "invalid URL";
         Duration := 0; Timestamp := 0; Retries := 1 |},
   {| clock := 0; trace := [EvAttempt 0; EvAttempt 1] |}).
Proof. reflexivity. Qed.

Example run_three_urls :
  returned (run ["a.example"; "http://b.example"; "c"]
                (round_robin 30 2 (steady (Response 404)) 0)
                (CheckAll_init (fresh (pool 2 1)) 0
                               ["a.example"; "http://b.example"; "c"])) =
  Some [ {| URL := "https://a.example"; Status := "error"; StatusCode := 404;
            Error := ""; Duration := 0; Timestamp := 0; Retries := 0 |};
         {| URL := "http://b.example"; Status := "error"; StatusCode := 404;
            Error := ""; Duration := 0; Timestamp := 0; Retries := 0 |};
         {| URL := "https://c"; Status := "error"; StatusCode := 404;
            Error := ""; Duration := 0; Timestamp := 0; Retries := 0 |} ].
Proof. vm_compute. reflexivity. Qed.

Example run_negative_retries_panics :
  panicked (run ["a.example"] (round_robin 30 1 (steady (Response 200)) 0)
                (CheckAll_init (fresh (pool 1 (-1))) 0 ["a.example"])) =
  Some "runtime error: invalid memory address or nil pointer dereference".
Proof. vm_compute. reflexivity. Qed.

Example check_negative_retries :
  fst (checkURL (policy (-1)) (always (Response 200)) "https://x" (world0 0)) =
  Panic "runtime error: invalid memory address or nil pointer dereference".
Proof. reflexivity. Qed.

(** The counter of a wait group takes what is added to it modulo [2^32]: a
    pool of [2^31] workers makes it negative, and a pool of [2^32 + 1]
    workers is counted as one worker. *)
Example wg_Add_wraps :
  wg_Add 0 5 = (5, None) /\
  wg_Add 0 (2 ^ 31) = (- 2 ^ 31, Some "sync: negative WaitGroup counter") /\
  wg_Add 0 (2 ^ 32 + 1) = (1, None) /\
  wg_Add 0 (-1) = (-1, Some "sync: negative WaitGroup counter").
Proof. repeat split. Qed.

(** ** Machine integers *)

Lemma wrap64_id z : in_int64 z -> wrap64 z = z.
Proof.
  unfold in_int64, int64_min, int64_max, wrap64. intros H.
  rewrite Z.mod_small; lia.
Qed.

Lemma wrap32_id z : - 2 ^ 31 <= z <= int32_max -> wrap32 z = z.
Proof.
  unfold int32_max, wrap32. intros H.
  rewrite Z.mod_small; lia.
Qed.



(** ** The normaliser *)

Lemma HasPrefix_begins_with pre s : HasPrefix s pre = true <-> begins_with pre s.
Proof.
  unfold HasPrefix, begins_with. revert s.
  induction pre as [|c pre IH]; intros [|d s]; simpl.
  - split; [by exists "" | done].
  - split; [by exists (String d s) | done].
  - split; [done | intros [rest H]; discriminate].
  - destruct (Ascii.ascii_dec c d) as [->|Hne].
    + rewrite IH. split; intros [rest H]; exists rest; [by rewrite H | by injection H].
    + split; [done | intros [rest H]; injection H; congruence].
Qed.

Lemma HasPrefix_append pre s : HasPrefix (pre ++ s)%string pre = true.
Proof. apply HasPrefix_begins_with. by exists s. Qed.

(** C6.  [normalizeURL] is a total function: it leaves an input that begins
    with http:// or https:// unchanged, prepends https:// to every other
    input, and is idempotent. *)
Theorem normalizeURL_correct (raw : string) :
  (begins_with "http://" raw \/ begins_with "https://" raw -> normalizeURL raw = raw) /\
  (~ (begins_with "http://" raw \/ begins_with "https://" raw) ->
   normalizeURL raw = ("https://" ++ raw)%string) /\
  normalizeURL (normalizeURL raw) = normalizeURL raw.
Proof.
  assert (Hdec : normalizeURL raw =
                 if HasPrefix raw "http://" || HasPrefix raw "https://"
                 then raw else ("https://" ++ raw)%string).
  { unfold normalizeURL.
    by destruct (HasPrefix raw "http://"), (HasPrefix raw "https://"). }
  split; [|split].
  - intros H. rewrite Hdec.
    destruct H as [H|H]; apply HasPrefix_begins_with in H; rewrite H; [done|].
    by rewrite orb_true_r.
  - intros H. rewrite Hdec.
    destruct (HasPrefix raw "http://") eqn:E1; [exfalso; apply H; left; by apply HasPrefix_begins_with|].
    destruct (HasPrefix raw "https://") eqn:E2; [exfalso; apply H; right; by apply HasPrefix_begins_with|].
    done.
  - rewrite Hdec.
    destruct (HasPrefix raw "http://" || HasPrefix raw "https://") eqn:E.
    + unfold normalizeURL.
      apply orb_true_iff in E as [E|E]; rewrite E; [done|].
      by rewrite andb_false_r.
    + unfold normalizeURL at 1.
      rewrite (HasPrefix_append "https://" raw). by rewrite andb_false_r.
Qed.

Lemma normalizeURL_correct_witness :
  (begins_with "http://" "http://a.b" \/ begins_with "https://" "http://a.b") /\
  normalizeURL "http://a.b" = "http://a.b" /\
  normalizeURL "a.b" = "https://a.b".
Proof.
  assert (H1 : begins_with "http://" "http://a.b" \/ begins_with "https://" "http://a.b").
  { left. exists "a.b". reflexivity. }
  assert (H2 : ~ (begins_with "http://" "a.b" \/ begins_with "https://" "a.b")).
  { intros [H|H]; apply HasPrefix_begins_with in H; discriminate H. }
  split; [exact H1|]. split.
  - exact (proj1 (normalizeURL_correct "http://a.b") H1).
  - exact (proj1 (proj2 (normalizeURL_correct "a.b")) H2).
Defined.

(** ** The executor *)

Lemma attempts_emit_attempt a w : attempts (emit (EvAttempt a) w) = attempts w + 1.
Proof.
  unfold attempts, emit; simpl.
  rewrite List.filter_app, length_app; simpl. lia.
Qed.

Lemma attempts_elapse d w : attempts (elapse d w) = attempts w.
Proof. reflexivity. Qed.

Lemma attempts_Sleep d w : attempts (Sleep d w) = attempts w.
Proof.
  unfold attempts, Sleep, elapse, emit; simpl.
  rewrite List.filter_app, length_app; simpl. lia.
Qed.

Lemma attempts_world0 t : attempts (world0 t) = 0.
Proof. reflexivity. Qed.

Section ExecutorFacts.
Variable cfg : Config.
Variable net : Net.
Variable url : string.
Variable start : Z.

Local Abbreviation R := (Cfg.Retries cfg).
Local Abbreviation loop := (retryLoop cfg net url start).

(** The bookkeeping of the loop: what it returns from inside carries the
    index of the iteration it returned from, and it falls through only after
    a request that could not be built in its last iteration. *)
Lemma retryLoop_bookkeeping n : forall attempt lastErr w,
  Z.of_nat n = R + 1 - attempt ->
  match loop n attempt lastErr w with
  | (inl r, w') =>
      URL r = url /\ Retries r = attempt + (attempts w' - attempts w) - 1 /\
      attempt <= Retries r <= R
  | (inr le, w') =>
      attempts w' = attempts w + Z.of_nat n /\
      ((n = 0%nat /\ le = lastErr /\ w' = w) \/
       (exists err, le = Some err /\ outcome net R = RequestError err))
  end.
Proof.
  induction n as [|n IH]; intros attempt lastErr w Hn; simpl.
  - split; [lia | by left].
  - destruct (outcome net attempt) as [err|err|code] eqn:Ho.
    + specialize (IH (attempt + 1) (Some err) (emit (EvAttempt attempt) w) ltac:(lia)).
      destruct (loop n _ _ _) as [[r|le] w']; rewrite attempts_emit_attempt in IH.
      * destruct IH as (? & ? & ?). repeat split; [done | lia..].
      * destruct IH as [Ha [(-> & -> & ->)|IH]].
        -- split; [lia|]. right. exists err. split; [done|].
           by replace R with attempt by lia.
        -- split; [lia | by right].
    + destruct (Z.eqb_spec attempt R) as [->|Hne].
      * simpl. rewrite attempts_elapse, attempts_emit_attempt. repeat split; lia.
      * specialize (IH (attempt + 1) (Some err)
                       (Sleep (backoff attempt)
                              (elapse (latency net attempt) (emit (EvAttempt attempt) w)))
                       ltac:(lia)).
        destruct (loop n _ _ _) as [[r|le] w'];
          rewrite attempts_Sleep, attempts_elapse, attempts_emit_attempt in IH.
        -- destruct IH as (? & ? & ?). repeat split; [done | lia..].
        -- destruct IH as [Ha [(-> & _)|IH]]; [lia|].
           split; [lia | by right].
    + simpl. rewrite attempts_elapse, attempts_emit_attempt. repeat split; lia.
Qed.


(** [j] failed attempts, none of them the last one, are [j] turns of the
    loop; they leave their [retry_events] in the log and the last error in
    [lastErr]. *)
Lemma retryLoop_failures j : forall n attempt lastErr w,
  (forall i, attempt <= i < attempt + Z.of_nat j -> fails (outcome net i)) ->
  attempt + Z.of_nat j <= R ->
  exists le w',
    loop (j + n) attempt lastErr w = loop n (attempt + Z.of_nat j) le w' /\
    trace w' = (trace w ++ flat_map (retry_events net) (seqZ attempt (Z.of_nat j)))%list /\
    le = match j with
         | O => lastErr
         | S _ => cause (outcome net (attempt + Z.of_nat j - 1))
         end.
Proof.
  induction j as [|j IH]; intros n attempt lastErr w Hfail Hle.
  - exists lastErr, w. simpl. rewrite Z.add_0_r, app_nil_r. done.
  - assert (Hseq : seqZ attempt (Z.of_nat (S j)) = attempt :: seqZ (attempt + 1) (Z.of_nat j)).
    { rewrite seqZ_cons by lia. f_equal. f_equal; lia. }
    rewrite Hseq. simpl flat_map.
    pose proof (Hfail attempt ltac:(lia)) as Hf.
    assert (Hnext : attempt + 1 + Z.of_nat j = attempt + Z.of_nat (S j)) by lia.
    unfold retry_events at 1. change (S j + n)%nat with (S (j + n)). simpl loop.
    destruct (outcome net attempt) as [err|err|code] eqn:Ho; [| |done].
    + destruct (IH n (attempt + 1) (Some err) (emit (EvAttempt attempt) w))
        as (le & w' & Heq & Htr & Hle'); [intros; apply Hfail; lia | lia |].
      exists le, w'. rewrite Heq, Htr, Hnext. simpl. rewrite <- app_assoc.
      split; [done|]. split; [done|].
      rewrite Hle'. destruct j.
      * replace (attempt + Z.of_nat 1 - 1) with attempt by lia. by rewrite Ho.
      * do 2 f_equal. lia.
    + destruct (Z.eqb_spec attempt R) as [->|_]; [lia|].
      destruct (IH n (attempt + 1) (Some err)
                   (Sleep (backoff attempt)
                          (elapse (latency net attempt) (emit (EvAttempt attempt) w))))
        as (le & w' & Heq & Htr & Hle'); [intros; apply Hfail; lia | lia |].
      exists le, w'. rewrite Heq, Htr, Hnext. simpl. rewrite <- !app_assoc.
      split; [done|]. split; [done|].
      rewrite Hle'. destruct j.
      * replace (attempt + Z.of_nat 1 - 1) with attempt by lia. by rewrite Ho.
      * do 2 f_equal. lia.
Qed.

End ExecutorFacts.

Section CheckFacts.
Variable cfg : Config.
Variable net : Net.
Variable url : string.

Local Abbreviation R := (Cfg.Retries cfg).

Lemma iterations_split k :
  0 <= k <= R -> iterations cfg = (Z.to_nat k + S (Z.to_nat (R - k)))%nat.
Proof. unfold iterations. lia. Qed.


(** With [Retries >= 0] a check returns a [Result]: for the URL it was given,
    and with the index of its last attempt in [Retries]. *)
Lemma checkURL_returns w :
  0 <= R ->
  exists r w', checkURL cfg net url w = (Ok r, w') /\
    URL r = url /\ Retries r = attempts w' - attempts w - 1 /\ 0 <= Retries r <= R.
Proof.
  intros HR. unfold checkURL.
  pose proof (retryLoop_bookkeeping cfg net url (clock w) (iterations cfg) 0 None w
                ltac:(unfold iterations; lia)) as H.
  destruct (retryLoop _ _ _ _ _ _ _ _) as [[r|le] w'].
  - destruct H as (? & ? & ?). exists r, w'. repeat split; [done | lia..].
  - destruct H as [Ha [(Hn & _)|(err & -> & _)]]; [unfold iterations in Hn; lia|].
    eexists _, w'. split; [done|]. simpl. unfold iterations in Ha.
    repeat split; lia.
Qed.

(** The run up to attempt [k] when every attempt before it failed. *)
Lemma checkURL_prefix w k :
  0 <= k <= R ->
  (forall i, 0 <= i < k -> fails (outcome net i)) ->
  exists le w1,
    retryLoop cfg net url (clock w) (iterations cfg) 0 None w =
    retryLoop cfg net url (clock w) (S (Z.to_nat (R - k))) k le w1 /\
    trace w1 = (trace w ++ flat_map (retry_events net) (seqZ 0 k))%list.
Proof.
  intros Hk Hfail.
  destruct (retryLoop_failures cfg net url (clock w) (Z.to_nat k)
              (S (Z.to_nat (R - k))) 0 None w) as (le & w1 & Heq & Htr & _).
  - intros i Hi. apply Hfail. lia.
  - lia.
  - exists le, w1. rewrite (iterations_split k Hk), Heq, Htr.
    replace (0 + Z.of_nat (Z.to_nat k)) with k by lia.
    by rewrite Z2Nat.id by lia.
Qed.

(** A completed response ends the check at once. *)
Lemma checkURL_response w k code :
  0 <= k <= R ->
  (forall i, 0 <= i < k -> fails (outcome net i)) ->
  outcome net k = Response code ->
  exists w',
    checkURL cfg net url w =
    (Ok {| URL := url; Status := if code >=? 400 then "error" else "success";
           StatusCode := code; Error := ""; Duration := Since (clock w) w';
           Timestamp := clock w'; Retries := k |}, w') /\
    trace w' = (trace w ++ flat_map (retry_events net) (seqZ 0 k) ++ [EvAttempt k])%list.
Proof.
  intros Hk Hfail Ho.
  destruct (checkURL_prefix w k Hk Hfail) as (le & w1 & Heq & Htr).
  unfold checkURL. rewrite Heq. simpl. rewrite Ho.
  exists (elapse (latency net k) (emit (EvAttempt k) w1)).
  split; [reflexivity|]. simpl. by rewrite Htr, <- app_assoc.
Qed.




End CheckFacts.




(** C4.  The first completed response decides the check: when the attempts
    before attempt [k] failed and attempt [k] gets a response, the check
    returns after attempt [k], with [k + 1] attempts made, the status code
    of that response, status success below 400 and error from 400 on; a 404
    on the first attempt gives exactly one attempt and an error with code
    404. *)
Theorem checkURL_classifies_first_response cfg net url t k code :
  0 <= k <= Cfg.Retries cfg ->
  (forall i, 0 <= i < k -> fails (outcome net i)) ->
  outcome net k = Response code ->
  exists r w', checkURL cfg net url (world0 t) = (Ok r, w') /\
    StatusCode r = code /\ Error r = "" /\
    (code < 400 -> Status r = "success") /\
    (400 <= code -> Status r = "error") /\
    attempts w' = k + 1 /\
    trace w' = (flat_map (retry_events net) (seqZ 0 k) ++ [EvAttempt k])%list /\
    (k = 0 -> code = 404 ->
     attempts w' = 1 /\ Status r = "error" /\ StatusCode r = 404 /\
     trace w' = [EvAttempt 0]).
Proof.
  intros Hk Hfail Ho.
  destruct (checkURL_response cfg net url (world0 t) k code Hk Hfail Ho) as (w' & Heq & Htr).
  destruct (checkURL_returns cfg net url (world0 t) ltac:(lia)) as (r & w1 & Heq1 & _ & Hret & _).
  rewrite Heq in Heq1. injection Heq1 as <- <-. simpl in Hret, Htr.
  rewrite attempts_world0 in Hret.
  eexists _, w'. split; [exact Heq|]. simpl.
  split; [done|]. split; [done|].
  split; [by destruct (Z.geb_spec code 400); [lia|]|].
  split; [by destruct (Z.geb_spec code 400); [|lia]|].
  split; [lia|]. split; [done|].
  intros -> ->. rewrite Htr. simpl. repeat split; lia.
Qed.

Lemma checkURL_classifies_first_response_witness :
  exists r w', checkURL (policy 3) (always (Response 404)) "https://x" (world0 0) = (Ok r, w') /\
    StatusCode r = 404 /\ attempts w' = 1.
Proof.
  destruct (checkURL_classifies_first_response
              (policy 3) (always (Response 404)) "https://x" 0 0 404)
    as (r & w' & Heq & Hcode & _ & _ & _ & Hatt & _).
  - simpl. lia.
  - intros i Hi. lia.
  - reflexivity.
  - exists r, w'. split; [exact Heq|]. split; [exact Hcode | exact Hatt].
Defined.




(** C10.  With [Retries >= 0] the loop runs to its end only after a request
    that could not be built in the iteration [attempt = Retries], and
    [lastErr] is then that non-nil error, so that [checkURL] does not panic;
    with [Retries < 0] the loop body does not run, [lastErr] is nil at the
    return after the loop, and [checkURL] panics. *)
Theorem checkURL_fallback_lastErr cfg net url w :
  (0 <= Cfg.Retries cfg ->
   (forall le w',
      retryLoop cfg net url (clock w) (iterations cfg) 0 None w = (inr le, w') ->
      exists err, le = Some err /\ outcome net (Cfg.Retries cfg) = RequestError err) /\
   (exists r, fst (checkURL cfg net url w) = Ok r)) /\
  (Cfg.Retries cfg < 0 ->
   retryLoop cfg net url (clock w) (iterations cfg) 0 None w = (inr None, w) /\
   exists msg, checkURL cfg net url w = (Panic msg, w)).
Proof.
  split.
  - intros HR. split.
    + intros le w' Heq.
      pose proof (retryLoop_bookkeeping cfg net url (clock w) (iterations cfg) 0 None w
                    ltac:(unfold iterations; lia)) as H.
      rewrite Heq in H. destruct H as [_ [(Hn & _)|H]]; [|done].
      unfold iterations in Hn. lia.
    + destruct (checkURL_returns cfg net url w HR) as (r & w' & Heq & _).
      exists r. by rewrite Heq.
  - intros HR. unfold checkURL, iterations.
    replace (Z.to_nat (Cfg.Retries cfg + 1)) with 0%nat by lia. simpl. eauto.
Qed.

Lemma checkURL_fallback_lastErr_witness :
  (exists r, fst (checkURL (policy 1) (always (RequestError "invalid URL")) "https://%zz"
                           (world0 0)) = Ok r) /\
  (exists msg, checkURL (policy (-1)) (always (Response 200)) "https://x" (world0 0) =
               (Panic msg, world0 0)).
Proof.
  split.
  - apply (checkURL_fallback_lastErr (policy 1) (always (RequestError "invalid URL"))
             "https://%zz" (world0 0)).
    simpl. lia.
  - apply (checkURL_fallback_lastErr (policy (-1)) (always (Response 200))
             "https://x" (world0 0)).
    simpl. lia.
Defined.

(** ** Statistics *)

Lemma tally_fold rs : forall total ok bad,
  Forall (fun r => 0 <= Duration r) rs ->
  0 <= total -> total + sum_durations rs <= int64_max ->
  fold_left tally rs (total, ok, bad) =
  (total + sum_durations rs, ok + successes rs,
   bad + (Z.of_nat (length rs) - successes rs)).
Proof.
  unfold successes.
  induction rs as [|r rs IH]; intros total ok bad Hpos Htot Hsum.
  - simpl. (f_equal; [f_equal|]); lia.
  - inversion Hpos as [|? ? Hr Hrs]; subst.
    assert (Hrest : 0 <= sum_durations rs).
    { clear -Hrs. induction Hrs; simpl; lia. }
    change (sum_durations (r :: rs)) with (Duration r + sum_durations rs) in *.
    cbn [fold_left tally List.filter].
    rewrite wrap64_id by (unfold in_int64, int64_min, int64_max in *; lia).
    destruct (String.eqb (Status r) "success");
      rewrite IH by (try done; lia); cbn [length]; rewrite !Nat2Z.inj_succ;
      (f_equal; [f_equal|]); lia.
Qed.

(** C9.  For the two results {success, 100ms} and {error, 200ms}, whatever
    their other fields, [PrintStats] reports 2 checks, 1 success, 1 error, an
    average of 150ms, a total of 300ms and a success rate of 50.0; in
    general, for a non-empty list of results with non-negative durations
    whose sum fits a [Duration], the total is the sum of the durations, the
    average is the total divided by the number of results, a result counts
    as a success exactly when its status is "success", and every other
    result counts as an error. *)
Theorem PrintStats_correct :
  (forall u1 c1 e1 t1 k1 u2 c2 e2 t2 k2,
     PrintStats [mkResult u1 "success" c1 e1 (100 * Millisecond) t1 k1;
                 mkResult u2 "error" c2 e2 (200 * Millisecond) t2 k2] =
     Some {| checks := 2; successCount := 1; errorCount := 1;
             avgTime := 150 * Millisecond; totalTime := 300 * Millisecond;
             successRate := 50%float |}) /\
  (forall rs,
     rs <> [] ->
     Forall (fun r => 0 <= Duration r) rs ->
     sum_durations rs <= int64_max ->
     PrintStats rs =
     Some {| checks := Z.of_nat (length rs);
             successCount := successes rs;
             errorCount := Z.of_nat (length rs) - successes rs;
             avgTime := Round (sum_durations rs ÷ Z.of_nat (length rs)) Millisecond;
             totalTime := Round (sum_durations rs) Millisecond;
             successRate := (float64 (successes rs) / float64 (Z.of_nat (length rs)) * 100)%float |}).
Proof.
  split; [reflexivity|].
  intros rs Hne Hpos Hsum. unfold PrintStats.
  destruct rs as [|r rs]; [done|].
  change (length (r :: rs) =? 0)%nat with false. cbv iota.
  rewrite tally_fold by (try done; lia). simpl Z.add. done.
Qed.

Lemma PrintStats_correct_witness :
  PrintStats [mkResult "a" "success" 200 "" (100 * Millisecond) 0 0;
              mkResult "b" "error" 0 "refused" (200 * Millisecond) 0 1;
              mkResult "c" "timeout" 0 "" (300 * Millisecond) 0 1] =
  Some {| checks := 3; successCount := 1; errorCount := 2;
          avgTime := 200 * Millisecond; totalTime := 600 * Millisecond;
          successRate := (float64 1 / float64 3 * 100)%float |}.
Proof.
  apply (proj2 PrintStats_correct
           [mkResult "a" "success" 200 "" (100 * Millisecond) 0 0;
            mkResult "b" "error" 0 "refused" (200 * Millisecond) 0 1;
            mkResult "c" "timeout" 0 "" (300 * Millisecond) 0 1]).
  - discriminate.
  - repeat constructor; simpl; discriminate.
  - vm_compute. discriminate.
Defined.

(** ** Channels *)

Lemma send_Done {A} (c c' : Chan A) x :
  send c x = Done c' ->
  closed c = false /\ (length (buf c) < cap c)%nat /\
  c' = {| buf := buf c ++ [x]; cap := cap c; closed := false |}.
Proof.
  unfold send. destruct (closed c); [done|].
  destruct (Nat.ltb_spec (length (buf c)) (cap c)); [|done].
  by intros [= <-].
Qed.

Lemma send_Panics {A} (c : Chan A) x msg : send c x = Panics msg -> closed c = true.
Proof.
  unfold send. destruct (closed c); [done|].
  by destruct (length (buf c) <? cap c)%nat.
Qed.

Lemma send_ready {A} (c : Chan A) x :
  closed c = false -> (length (buf c) < cap c)%nat -> exists c', send c x = Done c'.
Proof.
  intros Hc Hlt. unfold send. rewrite Hc.
  destruct (Nat.ltb_spec (length (buf c)) (cap c)); [eauto | lia].
Qed.

Lemma recv_Some {A} (c c' : Chan A) x :
  recv c = Done (Some x, c') ->
  buf c = x :: buf c' /\ cap c' = cap c /\ closed c' = closed c.
Proof.
  unfold recv. destruct (buf c) as [|y l] eqn:E.
  - by destruct (closed c).
  - by intros [= -> <-].
Qed.

Lemma recv_None {A} (c c' : Chan A) :
  recv c = Done (None, c') -> buf c = [] /\ closed c = true /\ c' = c.
Proof.
  unfold recv. destruct (buf c) as [|y l]; [|done].
  destruct (closed c); [|done]. by intros [= <-].
Qed.

Lemma recv_Panics {A} (c : Chan A) msg : recv c <> Panics msg.
Proof. unfold recv. destruct (buf c); [by destruct (closed c) | done]. Qed.

Lemma recv_Blocked {A} (c : Chan A) : recv c = Blocked -> buf c = [] /\ closed c = false.
Proof. unfold recv. destruct (buf c); [by destruct (closed c) | done]. Qed.

Lemma close_Done {A} (c c' : Chan A) :
  close c = Done c' ->
  closed c = false /\ c' = {| buf := buf c; cap := cap c; closed := true |}.
Proof. unfold close. destruct (closed c); [done|]. by intros [= <-]. Qed.

Lemma close_Panics {A} (c : Chan A) msg : close c = Panics msg -> closed c = true.
Proof. unfold close. by destruct (closed c). Qed.

Lemma close_Blocked {A} (c : Chan A) : close c <> Blocked.
Proof. unfold close. by destruct (closed c). Qed.

(** ** The pool of workers *)

(** The worker that moves, and the pool before and after its move. *)
Lemma worker_at (ws : list Worker) i w :
  ws !! i = Some w ->
  exists l1 l2, ws = l1 ++ w :: l2 /\ forall w', <[i := w']> ws = l1 ++ w' :: l2.
Proof.
  intros H. exists (take i ws), (drop (S i) ws). split.
  - by rewrite take_drop_middle.
  - intros w'. apply insert_take_drop. by eapply lookup_lt_Some.
Qed.

Lemma finished_le ws : (sum_list_with finished ws <= length ws)%nat.
Proof. induction ws as [|[] ws IH]; simpl; lia. Qed.

Lemma holds_slot_le ws : (sum_list_with holds_slot ws <= length ws)%nat.
Proof. induction ws as [|[] ws IH]; simpl; lia. Qed.

Lemma in_flight_le_holds_slot ws :
  (sum_list_with in_flight ws <= sum_list_with holds_slot ws)%nat.
Proof. induction ws as [|[] ws IH]; simpl; lia. Qed.

Lemma all_finished ws :
  sum_list_with finished ws = length ws -> flat_map in_hand ws = [].
Proof.
  induction ws as [|w ws IH]; [done|].
  pose proof (finished_le ws). destruct w; simpl; intros; try lia.
  apply IH. lia.
Qed.

Lemma unfinished_worker ws :
  (sum_list_with finished ws < length ws)%nat ->
  exists i w, ws !! i = Some w /\ w <> WDone.
Proof.
  induction ws as [|w ws IH]; simpl; [lia|]. intros H.
  destruct (decide (finished w = 0%nat)) as [Hw|Hw].
  - exists 0%nat, w. split; [done|]. by intros ->.
  - destruct IH as (i & w' & Hi & Hne); [destruct w; simpl in *; lia|].
    by exists (S i), w'.
Qed.

(** ** The scheduler *)

Ltac list_norm :=
  rewrite ?sum_list_with_app, ?flat_map_app, ?length_app, ?map_app in *;
  cbn [sum_list_with flat_map length map app finished holds_slot in_hand] in *;
  rewrite ?app_nil_r, ?Nat.add_0_r, ?Nat.add_0_l in *.

Ltac chan_inv :=
  repeat match goal with
  | H : send _ _ = Done _ |- _ => apply send_Done in H as (? & ? & ->)
  | H : send _ _ = Panics _ |- _ => apply send_Panics in H
  | H : recv _ = Done (Some _, _) |- _ =>
      let Hb := fresh "Hbuf" in apply recv_Some in H as (Hb & ? & ?); try rewrite Hb in *
  | H : recv _ = Done (None, _) |- _ =>
      let Hb := fresh "Hbuf" in apply recv_None in H as (Hb & ? & ->); try rewrite Hb in *
  | H : recv _ = Panics _ |- _ => by apply recv_Panics in H
  | H : close _ = Done _ |- _ => apply close_Done in H as (? & ->)
  | H : close _ = Panics _ |- _ => apply close_Panics in H
  | H : close _ = Blocked |- _ => by apply close_Blocked in H
  end.

(** Closes the routine side conditions: equal flags, counters, and the
    conservation of URLs. *)
Ltac inv_auto Hurls :=
  first
    [ done
    | lia
    | congruence
    | by (etrans; [|exact Hurls]; solve_Permutation)
    | by (intuition (first [done | congruence | lia]))
    | by (intros; exfalso; first [lia | congruence])
    | by (intros [_ ?]%app_eq_nil)
    | idtac ].

Ltac use_bufs :=
  repeat match goal with H : buf ?c = _ |- context [buf ?c] => rewrite H end.

Ltac inv_finish Hurls :=
  constructor; simpl; use_bufs; list_norm; inv_auto Hurls.

(** Splits a step into the transition that was taken: one goal for each way
    through [step], with the new state in the place of [s']. *)
Ltac step_split Hstep :=
  unfold step, step_main, step_sender, step_closer, step_worker, set_worker in Hstep;
  simpl in Hstep;
  repeat (match type of Hstep with
          | context [match ?x with _ => _ end] =>
              first [ is_var x; destruct x | destruct x eqn:? ]
          end; simpl in Hstep; try discriminate Hstep);
  injection Hstep as <-.

Lemma NewHealthChecker_fresh cfg h :
  NewHealthChecker (Some cfg) = Ok h ->
  h = {| config := cfg; client_Timeout := Cfg.Timeout cfg;
         semaphore := make (Z.to_nat (Cfg.Concurrency cfg)); results := make 100;
         wg := 0 |}.
Proof.
  unfold NewHealthChecker. destruct (Z.ltb_spec (Cfg.Concurrency cfg) 0); [done|].
  by intros [= <-].
Qed.

Lemma NewHealthChecker_nonneg cfg h :
  NewHealthChecker (Some cfg) = Ok h -> 0 <= Cfg.Concurrency cfg.
Proof.
  unfold NewHealthChecker. by destruct (Z.ltb_spec (Cfg.Concurrency cfg) 0).
Qed.

(** A check that returns a [Result] returns one for the URL it was given. *)
Lemma checkURL_Ok_URL cfg net url w r :
  fst (checkURL cfg net url w) = Ok r -> URL r = url.
Proof.
  destruct (Z.le_gt_cases 0 (Cfg.Retries cfg)) as [HR|HR].
  - intros Heq.
    destruct (checkURL_returns cfg net url w HR) as (r' & w' & Heq' & Hurl & _).
    rewrite Heq' in Heq. simpl in Heq. congruence.
  - unfold checkURL, iterations.
    by replace (Z.to_nat (Cfg.Retries cfg + 1)) with 0%nat by lia.
Qed.

(** *** Where the goroutines stand and what the channels hold *)

Section ShapeFacts.
Variable cfg : Config.
Variable urls : list string.

Local Abbreviation C := (Cfg.Concurrency cfg).

Lemma Shape_init h now :
  NewHealthChecker (Some cfg) = Ok h -> Shape cfg urls (CheckAll_init h now urls).
Proof.
  intros Hh. pose proof (NewHealthChecker_nonneg cfg h Hh).
  apply NewHealthChecker_fresh in Hh as ->. unfold CheckAll_init, wg_Add.
  constructor; simpl; try done; [by rewrite app_nil_r | lia].
Qed.

Lemma Shape_step s t net now s' :
  Shape cfg urls s -> step urls t net now s = Some s' -> Shape cfg urls s'.
Proof.
  intros [Hcfg Hpool Hsnd Hcls Hret (Hsem & Hsemcap & Hsemcl)
            (Hucap & Hucl) (Hrcap & Hrcl) Hurls Hdr Hidle] Hstep.
  destruct s as [dl [cf ct sem res wgc] uc ws sd cl p all pan].
  unfold step in Hstep. simpl in *. subst cf. destruct pan; [done|].
  assert (Hlen : Z.of_nat (length ws) <= C) by (destruct p; lia).
  destruct t as [| | |i].
  - (* the caller *)
    unfold step_main in Hstep; simpl in Hstep.
    destruct p as [i| | |].
    + destruct (Z.ltb_spec i C); injection Hstep as <-.
      * inv_finish Hurls; try by destruct ws.
      * destruct sd; try done;
          inv_finish Hurls.
    + injection Hstep as <-. destruct cl; try done;
        inv_finish Hurls.
    + destruct (recv res) as [[[r|] c]| |msg] eqn:E; chan_inv; try done;
        injection Hstep as <-.
      * inv_finish Hurls.
      * destruct cl; simpl in *; try congruence.
        inv_finish Hurls.
    + done.
  - (* the sender *)
    unfold step_sender in Hstep; simpl in Hstep.
    destruct sd as [|[|u rest]|]; try done.
    + destruct (close uc) as [c| |msg] eqn:E; chan_inv; try done;
        injection Hstep as <-; [|simpl in *; congruence].
      inv_finish Hurls.
    + destruct (send uc (normalizeURL u)) as [c| |msg] eqn:E; chan_inv; try done;
        injection Hstep as <-; [|simpl in *; congruence].
      inv_finish Hurls.
  - (* the closer *)
    unfold step_closer in Hstep; simpl in Hstep.
    destruct cl; try done.
    destruct (wgc =? 0); [|done].
    destruct (close res) as [c| |msg] eqn:E; chan_inv; try done;
      injection Hstep as <-; [|simpl in *; congruence].
    inv_finish Hurls.
  - (* worker [i] *)
    unfold step_worker in Hstep; simpl in Hstep.
    destruct (ws !! i) as [w|] eqn:Hw; [|done].
    destruct (worker_at ws i w Hw) as (l1 & l2 & -> & Hins).
    unfold set_worker in Hstep. simpl in Hstep.
    pose proof (finished_le l1). pose proof (finished_le l2).
    pose proof (holds_slot_le l1). pose proof (holds_slot_le l2).
    list_norm.
    destruct w as [|url|url|r| |]; try done.
    + destruct (recv uc) as [[[url|] c]| |msg] eqn:E; chan_inv; try done.
      * injection Hstep as <-. rewrite Hins.
        inv_finish Hurls.
      * destruct (wrap32 (wgc + -1) <? 0); injection Hstep as <-; rewrite ?Hins;
          inv_finish Hurls.
    + destruct (send sem ()) as [c| |msg] eqn:E; chan_inv; try done;
        injection Hstep as <-; [|congruence].
      rewrite Hins. inv_finish Hurls.
    + destruct (fst (checkURL cfg (net dl) url (world0 now))) as [r|msg] eqn:Hck;
        injection Hstep as <-.
      * apply checkURL_Ok_URL in Hck.
        rewrite Hins. constructor; simpl; use_bufs; list_norm; rewrite ?Hck; inv_auto Hurls.
      * inv_finish Hurls.
    + destruct (send res r) as [c| |msg] eqn:E; chan_inv; try done;
        injection Hstep as <-.
      * assert (Hcl : cl <> CDone) by (intros ->; simpl in *; congruence).
        assert (Hp : p <> MReturned) by (intros ->; by destruct (Hret eq_refl)).
        rewrite Hins. inv_finish Hurls.
      * inv_finish Hurls.
    + destruct (recv sem) as [[[[]|] c]| |msg] eqn:E; chan_inv; try done;
        injection Hstep as <-; [|congruence].
      rewrite Hins. inv_finish Hurls.
Qed.

(** The shape is kept along every execution of a call on a fresh
    [HealthChecker]. *)
Lemma reachable_Shape h now s :
  NewHealthChecker (Some cfg) = Ok h ->
  reachable urls (CheckAll_init h now urls) s -> Shape cfg urls s.
Proof.
  intros Hh Hreach. induction Hreach as [|s t net now' s' _ IH Hstep].
  - by apply Shape_init.
  - by eapply Shape_step.
Qed.

End ShapeFacts.

(** *** The counter of the wait group *)

Section SchedulerFacts.
Variable cfg : Config.
Variable urls : list string.
Hypothesis concurrency_nonneg : 0 <= Cfg.Concurrency cfg.
Hypothesis concurrency_int32 : Cfg.Concurrency cfg <= int32_max.
Hypothesis checks_return :
  0 <= Cfg.Retries cfg \/ Cfg.Concurrency cfg = 0 \/ urls = [].

Local Abbreviation C := (Cfg.Concurrency cfg).

Lemma Inv_init h now :
  NewHealthChecker (Some cfg) = Ok h -> Inv cfg urls (CheckAll_init h now urls).
Proof.
  intros ->%NewHealthChecker_fresh. unfold CheckAll_init, wg_Add.
  rewrite wrap32_id by (unfold int32_max in *; simpl; lia).
  constructor; simpl; try done.
  - by destruct (Z.ltb_spec (0 + C) 0); [lia|].
  - lia.
  - by rewrite app_nil_r.
  - lia.
Qed.

(** A worker that holds a URL shows that checks return: the pool and the
    list of URLs are not empty. *)
Lemma busy_retries_nonneg (ws : list Worker) i url rest :
  ws !! i = Some (WCheck url) ->
  Z.of_nat (length ws) <= C ->
  rest ++ flat_map in_hand ws ≡ₚ map normalizeURL urls ->
  0 <= Cfg.Retries cfg.
Proof.
  intros Hw Hlen Hurls.
  destruct checks_return as [?|[HC0|Hnil]]; [done|exfalso..].
  - apply lookup_lt_Some in Hw. lia.
  - destruct (worker_at ws i _ Hw) as (l1 & l2 & -> & _).
    rewrite Hnil in Hurls. apply Permutation_length in Hurls.
    rewrite flat_map_app, !length_app in Hurls. simpl in Hurls. lia.
Qed.

Lemma Inv_step s t net now s' :
  Inv cfg urls s -> step urls t net now s = Some s' -> Inv cfg urls s'.
Proof.
  intros [Hcfg Hpan Hpool Hsnd Hcls Hret Hwg (Hsem & Hsemcap & Hsemcl)
            (Hucap & Hucl) (Hrcap & Hrcl & Hrwg) Hurls Hdr Hidle] Hstep.
  destruct s as [dl [cf ct sem res wgc] uc ws sd cl p all pan].
  unfold step in Hstep. simpl in *. subst cf pan.
  assert (Hlen : Z.of_nat (length ws) <= C) by (destruct p; lia).
  destruct t as [| | |i].
  - (* the caller *)
    unfold step_main in Hstep; simpl in Hstep.
    destruct p as [i| | |].
    + destruct (Z.ltb_spec i C); injection Hstep as <-.
      * inv_finish Hurls; try by destruct ws.
      * destruct sd; try done;
          inv_finish Hurls.
    + injection Hstep as <-. destruct cl; try done;
        inv_finish Hurls.
    + destruct (recv res) as [[[r|] c]| |msg] eqn:E; chan_inv; try done;
        injection Hstep as <-.
      * inv_finish Hurls.
      * destruct cl; simpl in *; try congruence.
        inv_finish Hurls.
    + done.
  - (* the sender *)
    unfold step_sender in Hstep; simpl in Hstep.
    destruct sd as [|[|u rest]|]; try done.
    + destruct (close uc) as [c| |msg] eqn:E; chan_inv; try done;
        injection Hstep as <-; [|simpl in *; congruence].
      inv_finish Hurls.
    + destruct (send uc (normalizeURL u)) as [c| |msg] eqn:E; chan_inv; try done;
        injection Hstep as <-; [|simpl in *; congruence].
      inv_finish Hurls.
  - (* the closer *)
    unfold step_closer in Hstep; simpl in Hstep.
    destruct cl; try done.
    destruct (Z.eqb_spec wgc 0) as [->|]; [|done].
    destruct (close res) as [c| |msg] eqn:E; chan_inv; try done;
      injection Hstep as <-; [|simpl in *; congruence].
    inv_finish Hurls.
  - (* worker [i] *)
    unfold step_worker in Hstep; simpl in Hstep.
    destruct (ws !! i) as [w|] eqn:Hw; [|done].
    assert (HR : forall url, w = WCheck url -> 0 <= Cfg.Retries cfg).
    { intros url ->.
      apply (busy_retries_nonneg ws i url
               (pending urls sd ++ buf uc ++ map URL (buf res) ++ map URL all) Hw Hlen).
      etrans; [|exact Hurls]. solve_Permutation. }
    destruct (worker_at ws i w Hw) as (l1 & l2 & -> & Hins).
    unfold set_worker in Hstep. simpl in Hstep.
    pose proof (finished_le l1). pose proof (finished_le l2).
    pose proof (holds_slot_le l1). pose proof (holds_slot_le l2).
    list_norm.
    assert (Hbusy : w <> WDone -> 0 < wgc /\ cl <> CDone /\ p <> MReturned).
    { intros Hne.
      assert (0 < wgc) by (destruct w; simpl in *; try done; lia).
      assert (cl <> CDone) by (intros ->; specialize (Hrwg eq_refl); lia).
      repeat split; [done..|].
      intros ->. by destruct (Hret eq_refl). }
    destruct w as [|url|url|r| |]; try done;
      destruct (Hbusy ltac:(done)) as (Hwgc & Hcl & Hp); clear Hbusy.
    + destruct (recv uc) as [[[url|] c]| |msg] eqn:E; chan_inv; try done.
      * injection Hstep as <-. rewrite Hins.
        inv_finish Hurls.
      * rewrite wrap32_id in Hstep by (unfold int32_max in *; lia).
        destruct (Z.ltb_spec (wgc + -1) 0); [lia|].
        injection Hstep as <-. rewrite Hins.
        inv_finish Hurls.
    + destruct (send sem ()) as [c| |msg] eqn:E; chan_inv; try done;
        injection Hstep as <-; [|congruence].
      rewrite Hins. inv_finish Hurls.
    + destruct (checkURL_returns cfg (net dl) url (world0 now) (HR url eq_refl))
        as (r & w' & Heq & Hurl & _).
      rewrite Heq in Hstep. simpl in Hstep. injection Hstep as <-.
      rewrite Hins. constructor; simpl; use_bufs; list_norm; rewrite ?Hurl; inv_auto Hurls.
    + destruct (send res r) as [c| |msg] eqn:E; chan_inv; try done;
        injection Hstep as <-; [|destruct cl; simpl in *; congruence].
      rewrite Hins. inv_finish Hurls.
    + destruct (recv sem) as [[[[]|] c]| |msg] eqn:E; chan_inv; try done;
        injection Hstep as <-; [|congruence].
      rewrite Hins. inv_finish Hurls.
Qed.

Ltac measure_auto :=
  unfold measure; simpl; use_bufs;
  repeat match goal with H : forall w', <[_ := w']> _ = _ |- _ => rewrite !H end;
  rewrite ?sum_list_with_app, ?length_app; simpl; lia.

(** Every step lowers the measure: no execution is longer than the measure
    of the state it starts in. *)
Lemma step_measure s t net now s' :
  Inv cfg urls s ->
  step urls t net now s = Some s' -> (measure urls s' < measure urls s)%nat.
Proof.
  intros [_ _ _ Hsnd Hcls _ _ _ _ _ _ _ _] Hstep.
  destruct s as [dl [cf ct sem res wgc] uc ws sd cl p all pan].
  unfold step in Hstep. simpl in *. destruct pan; [done|].
  destruct t as [| | |i].
  - unfold step_main in Hstep; simpl in Hstep.
    destruct p as [i| | |]; [| | |done].
    + destruct sd; try done.
      destruct (Z.ltb_spec i (Cfg.Concurrency cf)); injection Hstep as <-; measure_auto.
    + destruct cl; try done. injection Hstep as <-; measure_auto.
    + destruct (recv res) as [[[r|] c]| |msg] eqn:E; chan_inv; try done;
        injection Hstep as <-; measure_auto.
  - unfold step_sender in Hstep; simpl in Hstep.
    destruct sd as [|[|u rest]|]; try done.
    + destruct (close uc) as [c| |msg] eqn:E; chan_inv; try done;
        injection Hstep as <-; measure_auto.
    + destruct (send uc (normalizeURL u)) as [c| |msg] eqn:E; chan_inv; try done;
        injection Hstep as <-; measure_auto.
  - unfold step_closer in Hstep; simpl in Hstep.
    destruct cl; try done.
    destruct (wgc =? 0); [|done].
    destruct (close res) as [c| |msg] eqn:E; chan_inv; try done;
      injection Hstep as <-; measure_auto.
  - unfold step_worker in Hstep; simpl in Hstep.
    destruct (ws !! i) as [w|] eqn:Hw; [|done].
    destruct (worker_at ws i w Hw) as (l1 & l2 & -> & Hins).
    unfold set_worker in Hstep. simpl in Hstep.
    destruct w as [|url|url|r| |]; try done.
    + destruct (recv uc) as [[[url|] c]| |msg] eqn:E; chan_inv; try done.
      * injection Hstep as <-; measure_auto.
      * destruct (wrap32 (wgc + -1) <? 0); injection Hstep as <-; measure_auto.
    + destruct (send sem ()) as [c| |msg] eqn:E; chan_inv; try done;
        injection Hstep as <-; measure_auto.
    + destruct (fst (checkURL cf (net dl) url (world0 now))); injection Hstep as <-;
        measure_auto.
    + destruct (send res r) as [c| |msg] eqn:E; chan_inv; try done;
        injection Hstep as <-; measure_auto.
    + destruct (recv sem) as [[[[]|] c]| |msg] eqn:E; chan_inv; try done;
        injection Hstep as <-; measure_auto.
Qed.

(** As long as the call has not returned some goroutine can move, whatever
    the network does: the program cannot hang. *)
Lemma step_progress s :
  Inv cfg urls s -> pc s <> MReturned ->
  exists t, forall net now, exists s', step urls t net now s = Some s'.
Proof.
  intros [Hcfg Hpan Hpool Hsnd Hcls Hret Hwg (Hsem & Hsemcap & Hsemcl)
            (Hucap & Hucl) (Hrcap & Hrcl & Hrwg) Hurls Hdr Hidle] Hpc.
  destruct s as [dl [cf ct sem res wgc] uc ws sd cl p all pan].
  unfold step. simpl in *. subst cf pan.
  assert (Hlen : Z.of_nat (length ws) <= C) by (destruct p; lia).
  destruct p as [i| | |]; [| | |done].
  { exists TMain. intros net now. unfold step_main; simpl.
    destruct (i <? C); eauto. }
  { exists TMain. intros net now. unfold step_main; simpl. eauto. }
  destruct (recv res) as [[[r|] c]| |msg] eqn:E;
    [| | |by apply recv_Panics in E];
    [exists TMain; intros net now; unfold step_main; simpl; rewrite E; eauto..|].
  apply recv_Blocked in E as [Hres Hopen].
  destruct cl; simpl in *; try congruence.
  destruct (Z.eqb_spec wgc 0) as [->|Hwgc].
  { exists TCloser. intros net now. unfold step_closer; simpl.
    unfold close. rewrite Hopen. eauto. }
  pose proof (finished_le ws) as Hfin.
  destruct (unfinished_worker ws) as (i & w & Hw & Hne); [lia|].
  assert (HR : forall url, w = WCheck url -> 0 <= Cfg.Retries cfg).
  { intros url ->.
    apply (busy_retries_nonneg ws i url
             (pending urls sd ++ buf uc ++ map URL (buf res) ++ map URL all) Hw Hlen).
    etrans; [|exact Hurls]. solve_Permutation. }
  destruct (worker_at ws i w Hw) as (l1 & l2 & -> & Hins).
  pose proof (holds_slot_le l1). pose proof (holds_slot_le l2).
  pose proof (finished_le l1). pose proof (finished_le l2).
  destruct w as [|url|url|r| |]; [| | | | |done]; list_norm.
  - destruct (recv uc) as [[[url|] c]| |msg] eqn:E;
      [| | |by apply recv_Panics in E].
    + exists (TWorker i). intros net now. unfold step_worker; simpl. rewrite Hw, E. eauto.
    + exists (TWorker i). intros net now. unfold step_worker; simpl. rewrite Hw, E.
      destruct (wrap32 (wgc + -1) <? 0); eauto.
    + apply recv_Blocked in E as [Huc Huopen].
      exists TSender. intros net now. unfold step_sender; simpl.
      destruct sd as [|[|u rest]|]; simpl in *; try congruence.
      * unfold close. rewrite Huopen. eauto.
      * apply Permutation_length in Hurls.
        cbn [length] in Hurls. rewrite length_map in Hurls.
        destruct (send_ready uc (normalizeURL u)) as [c ->];
          [done | rewrite Huc; simpl; lia | eauto].
  - exists (TWorker i). intros net now. unfold step_worker; simpl. rewrite Hw.
    destruct (send_ready sem ()) as [c ->]; [done | lia | eauto].
  - exists (TWorker i). intros net now. unfold step_worker; simpl. rewrite Hw.
    destruct (checkURL_returns cfg (net dl) url (world0 now) (HR url eq_refl))
      as (r & w' & -> & _).
    simpl. eauto.
  - exists (TWorker i). intros net now. unfold step_worker; simpl. rewrite Hw.
    destruct (send_ready res r) as [c ->]; [done | rewrite Hres, Hrcap; simpl; lia | eauto].
  - exists (TWorker i). intros net now. unfold step_worker; simpl. rewrite Hw.
    unfold recv. destruct (buf sem); simpl in *; [lia | eauto].
Qed.

(** The invariant holds along every execution of a call on a fresh
    [HealthChecker]. *)
Lemma reachable_Inv h now s :
  NewHealthChecker (Some cfg) = Ok h ->
  reachable urls (CheckAll_init h now urls) s -> Inv cfg urls s.
Proof.
  intros Hh Hreach. induction Hreach as [|s t net now' s' _ IH Hstep].
  - by apply Inv_init.
  - by eapply Inv_step.
Qed.

(** What the call has collected when it returns. *)
Lemma Inv_returned s rs :
  Inv cfg urls s -> returned s = Some rs ->
  (C = 0 -> rs = []) /\ (0 < C -> map URL rs ≡ₚ map normalizeURL urls).
Proof.
  intros [Hcfg Hpan Hpool Hsnd Hcls Hret Hwg (Hsem & Hsemcap & Hsemcl)
            (Hucap & Hucl) (Hrcap & Hrcl & Hrwg) Hurls Hdr Hidle].
  unfold returned. destruct (pc s) eqn:Hpc; try done. intros [= <-].
  destruct (Hret eq_refl) as [Hcl Hres]. specialize (Hrwg Hcl).
  split.
  - intros HC. apply Hidle. apply length_zero_iff_nil. lia.
  - intros HC. rewrite Hrwg in Hwg.
    destruct Hdr as [Huc Hbuf]; [lia|].
    rewrite Hucl in Huc. destruct (sender s); try done.
    rewrite all_finished in Hurls by lia.
    rewrite Hbuf, Hres in Hurls. by simpl in Hurls.
Qed.


End SchedulerFacts.

(** The context and the configuration of a call are fixed when it starts. *)
Lemma step_frame urls t net now s s' :
  step urls t net now s = Some s' ->
  ctx s' = ctx s /\ config (hc s') = config (hc s).
Proof.
  intros Hstep. destruct s as [dl [cf ct sem res wgc] uc ws sd cl p all pan].
  step_split Hstep; by simpl.
Qed.

Lemma run_reachable urls sched : forall s0 s,
  reachable urls s0 s -> reachable urls s0 (run urls sched s).
Proof.
  induction sched as [|[[t net] now] sched IH]; intros s0 s Hs; simpl; [done|].
  destruct (step urls t net now s) as [s'|] eqn:E; [|by apply IH].
  apply IH. by eapply reach_step.
Qed.


(** ** The claims about the scheduler *)

Lemma NewHealthChecker_Ok cfg :
  0 <= Cfg.Concurrency cfg -> NewHealthChecker (Some cfg) = Ok (fresh cfg).
Proof.
  intros HC. unfold NewHealthChecker.
  by destruct (Z.ltb_spec (Cfg.Concurrency cfg) 0); [lia|].
Qed.





(** C2 (amended).  Neither [NewHealthChecker] nor [CheckAll] reports a
    configuration error.  For a negative [Concurrency] the construction
    panics before anything is dispatched.  For [Concurrency = 0], or for an
    empty list of URLs and a [Concurrency] up to [int32_max], the
    construction succeeds and [CheckAll] runs as for any other input,
    whatever [Retries] is: it does not panic, it does not hang (some
    goroutine can move until the call returns, and every move lowers the
    measure), and it returns the empty list.  The command-line front end
    refuses an empty list with the usage text and exit status 1 before it
    builds the checker, and hands any other list to the checker with
    [Concurrency] as given. *)
Theorem CheckAll_reports_no_configuration_error :
  (forall cfg, Cfg.Concurrency cfg < 0 ->
     exists msg, NewHealthChecker (Some cfg) = Panic msg) /\
  (forall cfg urls now,
     0 <= Cfg.Concurrency cfg <= int32_max ->
     Cfg.Concurrency cfg = 0 \/ urls = [] ->
     exists h, NewHealthChecker (Some cfg) = Ok h /\
       forall s, reachable urls (CheckAll_init h now urls) s ->
         panicked s = None /\
         (forall rs, returned s = Some rs -> rs = []) /\
         (returned s = None ->
            exists t, forall net now', exists s', step urls t net now' s = Some s') /\
         (forall t net now' s',
            step urls t net now' s = Some s' -> (measure urls s' < measure urls s)%nat)) /\
  (forall timeout concurrent retries,
     main [] timeout concurrent retries = UsageExit 1) /\
  (forall urls timeout concurrent retries,
     urls <> [] ->
     main urls timeout concurrent retries =
     RunChecks {| Cfg.Timeout := timeout; Cfg.Concurrency := concurrent;
                  Cfg.Retries := retries; Cfg.UserAgent := "HealthChecker/1.0" |} urls).
Proof.
  split; [|split; [|split]].
  - intros cfg HC. unfold NewHealthChecker.
    destruct (Z.ltb_spec (Cfg.Concurrency cfg) 0); [eauto | lia].
  - intros cfg urls now [HC HC32] Hempty.
    assert (Hchk : 0 <= Cfg.Retries cfg \/ Cfg.Concurrency cfg = 0 \/ urls = [])
      by by right.
    exists (fresh cfg). split; [by apply NewHealthChecker_Ok|].
    intros s Hreach.
    assert (Hinv : Inv cfg urls s).
    { eapply reachable_Inv; [done.. | |done]. by apply NewHealthChecker_Ok. }
    split; [by destruct Hinv|]. split; [|split].
    + intros rs Hrs.
      destruct (Inv_returned cfg urls s rs Hinv Hrs) as [Hzero Hperm].
      destruct (Z.eq_dec (Cfg.Concurrency cfg) 0) as [H0|Hne]; [by apply Hzero|].
      destruct Hempty as [?| ->]; [done|].
      specialize (Hperm ltac:(lia)). simpl in Hperm.
      apply Permutation_nil_r in Hperm. by destruct rs.
    + intros Hnone. apply (step_progress cfg urls); [done..|].
      intros Hpc. unfold returned in Hnone. by rewrite Hpc in Hnone.
    + intros t net now' s' Hstep. by eapply step_measure.
  - done.
  - intros [|u urls] timeout concurrent retries Hne; done.
Qed.

Lemma CheckAll_reports_no_configuration_error_witness :
  exists h, NewHealthChecker (Some (pool 0 (-1))) = Ok h /\
    forall s, reachable ["a.example"] (CheckAll_init h 0 ["a.example"]) s ->
      panicked s = None /\ (forall rs, returned s = Some rs -> rs = []).
Proof.
  destruct (proj1 (proj2 CheckAll_reports_no_configuration_error)
              (pool 0 (-1)) ["a.example"] 0) as (h & Hh & Hs).
  - vm_compute. split; discriminate.
  - left. reflexivity.
  - exists h. split; [exact Hh|].
    intros s Hreach. destruct (Hs s Hreach) as (Hpan & Hret & _).
    split; [exact Hpan | exact Hret].
Defined.

(** C2, as stated, fails: with [Concurrency = 0] and one URL the checker is
    built without an error and [CheckAll] returns the empty list, with no
    panic; with an empty list and [Concurrency = 5] it does the same. *)
Lemma zero_concurrency_returns_empty_list :
  NewHealthChecker (Some (pool 0 1)) = Ok (fresh (pool 0 1)) /\
  returned (run ["a.example"] (round_robin 5 0 (steady (Response 200)) 0)
                (CheckAll_init (fresh (pool 0 1)) 0 ["a.example"])) = Some [] /\
  panicked (run ["a.example"] (round_robin 5 0 (steady (Response 200)) 0)
                (CheckAll_init (fresh (pool 0 1)) 0 ["a.example"])) = None /\
  NewHealthChecker (Some (pool 5 1)) = Ok (fresh (pool 5 1)) /\
  returned (run [] (round_robin 20 5 (steady (Response 200)) 0)
                (CheckAll_init (fresh (pool 5 1)) 0 [])) = Some [] /\
  panicked (run [] (round_robin 20 5 (steady (Response 200)) 0)
                (CheckAll_init (fresh (pool 5 1)) 0 [])) = None.
Proof. repeat split; vm_compute; reflexivity. Qed.

(** The context and the configuration of a call are those it started
    with. *)
Lemma reachable_frame urls h now s :
  reachable urls (CheckAll_init h now urls) s ->
  ctx s = ctx (CheckAll_init h now urls) /\ config (hc s) = config h.
Proof.
  intros Hreach. induction Hreach as [|s t net now' s' _ IH Hstep].
  - unfold CheckAll_init. by destruct (wg_Add _ _).
  - destruct (step_frame _ _ _ _ _ _ Hstep) as [-> ->]. exact IH.
Qed.

(** C7 (amended).  [CheckAll] makes one context when it starts, and every
    worker hands that context to every check it runs.  The context is
    derived from [context.Background()] and its deadline is the instant of
    the call plus [Timeout * len(urls)] computed as a [Duration], that is
    wrapped to 64 bits; when the product fits a [Duration] the deadline is
    the instant of the call plus [Timeout * len(urls)].  No step of the call
    changes it, and a worker that runs a check runs it on the network as the
    requests built with that context see it. *)
Theorem CheckAll_deadline urls h now s :
  reachable urls (CheckAll_init h now urls) s ->
  ctx s = WithDeadline Background
            (now + wrap64 (Cfg.Timeout (config h) * Z.of_nat (length urls))) /\
  Deadline (ctx s) =
    Some (now + wrap64 (Cfg.Timeout (config h) * Z.of_nat (length urls))) /\
  (in_int64 (Cfg.Timeout (config h) * Z.of_nat (length urls)) ->
   Deadline (ctx s) = Some (now + Cfg.Timeout (config h) * Z.of_nat (length urls))) /\
  (forall i url net now' s',
     workers s !! i = Some (WCheck url) ->
     step urls (TWorker i) net now' s = Some s' ->
     s' = match fst (checkURL (config h)
                       (net (WithDeadline Background
                               (now + wrap64 (Cfg.Timeout (config h) *
                                              Z.of_nat (length urls)))))
                       url (world0 now')) with
          | Ok r => set_worker i (WSend r) s
          | Panic msg => panic msg s
          end).
Proof.
  intros Hreach. destruct (reachable_frame urls h now s Hreach) as [Hctx Hcfg].
  assert (Hc : ctx s = WithDeadline Background
                 (now + wrap64 (Cfg.Timeout (config h) * Z.of_nat (length urls)))).
  { rewrite Hctx. unfold CheckAll_init. by destruct (wg_Add _ _). }
  split; [exact Hc|]. split; [by rewrite Hc|]. split.
  - intros Hfit. rewrite Hc. simpl. by rewrite wrap64_id.
  - intros i url net now' s' Hw Hstep.
    unfold step, step_worker in Hstep. rewrite Hw, Hcfg, Hc in Hstep.
    destruct (panicked s); [done|].
    by destruct (fst (checkURL _ _ _ _)); injection Hstep as <-.
Qed.

Lemma CheckAll_deadline_witness :
  Deadline (ctx (run ["a.example"; "http://b.example"; "c"]
                     (round_robin 30 2 (steady (Response 200)) 0)
                     (CheckAll_init (fresh (pool 2 1)) 1000
                                    ["a.example"; "http://b.example"; "c"]))) =
  Some (1000 + 10 * Second * 3).
Proof.
  apply (CheckAll_deadline ["a.example"; "http://b.example"; "c"] (fresh (pool 2 1)) 1000).
  - apply run_reachable. constructor.
  - vm_compute. split; discriminate.
Defined.

(** C7, as stated, fails when [Timeout * len(urls)] does not fit a
    [Duration].  With a timeout of [2^62] nanoseconds and 5 seconds and two
    URLs, the deadline of the context of a call made at instant 0 is not
    [Timeout * 2] but lies before the call, at [-2^63] nanoseconds plus 10
    seconds; on a network that heeds the deadline both checks fail at once,
    while with a timeout of 10 seconds both get their response. *)
Lemma overflowing_timeout_puts_the_deadline_in_the_past :
  Deadline (ctx (CheckAll_init (fresh long_timeout) 0 ["a.example"; "c"])) =
    Some (- 2 ^ 63 + 10 * Second) /\
  Deadline (ctx (CheckAll_init (fresh long_timeout) 0 ["a.example"; "c"])) <>
    Some (0 + Cfg.Timeout long_timeout * 2) /\
  (map Error <$>
     returned (run ["a.example"; "c"]
                   (round_robin 30 2 (expiring 0 (always (Response 200))) 0)
                   (CheckAll_init (fresh long_timeout) 0 ["a.example"; "c"]))) =
    Some ["context deadline exceeded"; "context deadline exceeded"] /\
  (map StatusCode <$>
     returned (run ["a.example"; "c"]
                   (round_robin 30 2 (expiring 0 (always (Response 200))) 0)
                   (CheckAll_init (fresh (pool 2 0)) 0 ["a.example"; "c"]))) =
    Some [200; 200].
Proof. repeat split; vm_compute; (reflexivity || discriminate). Qed.

(** C8.  In every state an execution of [CheckAll] on a fresh checker can
    reach (with [Retries >= 0]), every check that is executing holds a slot
    of the semaphore, whose capacity is [Concurrency]: the number of checks
    in flight is at most the number of slots taken, which is the number of
    workers between acquiring and releasing and is at most [Concurrency];
    and the pool never has more than [Concurrency] workers, and has exactly
    that many once they are all started. *)
Theorem CheckAll_bounded_concurrency cfg urls h now s :
  0 <= Cfg.Concurrency cfg ->
  0 <= Cfg.Retries cfg ->
  NewHealthChecker (Some cfg) = Ok h ->
  reachable urls (CheckAll_init h now urls) s ->
  (sum_list_with in_flight (workers s) <= length (buf (semaphore (hc s))))%nat /\
  length (buf (semaphore (hc s))) = sum_list_with holds_slot (workers s) /\
  (length (buf (semaphore (hc s))) <= cap (semaphore (hc s)))%nat /\
  Z.of_nat (cap (semaphore (hc s))) = Cfg.Concurrency cfg /\
  Z.of_nat (sum_list_with in_flight (workers s)) <= Cfg.Concurrency cfg /\
  Z.of_nat (length (workers s)) <= Cfg.Concurrency cfg /\
  (spawning (pc s) = false -> Z.of_nat (length (workers s)) = Cfg.Concurrency cfg).
Proof.
  intros HC HR Hh Hreach.
  destruct (reachable_Shape cfg urls h now s Hh Hreach)
    as [_ Hpool _ _ _ (Hsem & Hsemcap & _) _ _ _ _ _].
  pose proof (in_flight_le_holds_slot (workers s)).
  pose proof (holds_slot_le (workers s)).
  assert (Z.of_nat (length (workers s)) <= Cfg.Concurrency cfg) by (destruct (pc s); lia).
  repeat split; try lia.
  by destruct (pc s).
Qed.

Lemma CheckAll_bounded_concurrency_witness :
  (sum_list_with in_flight
     (workers (run ["a.example"; "http://b.example"; "c"]
                   (round_robin 3 2 (steady (Response 200)) 0)
                   (CheckAll_init (fresh (pool 2 1)) 0
                                  ["a.example"; "http://b.example"; "c"]))) <= 2)%nat.
Proof.
  pose proof (CheckAll_bounded_concurrency
                (pool 2 1) ["a.example"; "http://b.example"; "c"] (fresh (pool 2 1)) 0
                (run ["a.example"; "http://b.example"; "c"]
                     (round_robin 3 2 (steady (Response 200)) 0)
                     (CheckAll_init (fresh (pool 2 1)) 0
                                    ["a.example"; "http://b.example"; "c"]))) as H.
  destruct H as (_ & _ & _ & _ & H & _).
  - simpl. lia.
  - simpl. lia.
  - reflexivity.
  - apply run_reachable. constructor.
  - simpl Cfg.Concurrency in H. lia.
Defined.

(* ================================================================== *)
(** * Further properties *)

(** ** The normaliser *)

Lemma normalizeURL_begins raw :
  begins_with "http://" (normalizeURL raw) \/ begins_with "https://" (normalizeURL raw).
Proof.
  unfold normalizeURL.
  destruct (HasPrefix raw "http://") eqn:E1; simpl;
    [left; by apply HasPrefix_begins_with|].
  destruct (HasPrefix raw "https://") eqn:E2; simpl;
    [right; by apply HasPrefix_begins_with|].
  right. by exists raw.
Qed.

(** X1.  The result of [normalizeURL] always begins with http:// or
    https://, it ends with the input (the input is kept whole, behind at most
    the prefix https://), and the inputs it leaves unchanged are exactly
    those that begin with one of the two schemes. *)
Theorem normalizeURL_has_scheme (raw : string) :
  (begins_with "http://" (normalizeURL raw) \/ begins_with "https://" (normalizeURL raw)) /\
  (normalizeURL raw = raw \/ normalizeURL raw = ("https://" ++ raw)%string) /\
  (normalizeURL raw = raw <->
   begins_with "http://" raw \/ begins_with "https://" raw).
Proof.
  split; [apply normalizeURL_begins|].
  unfold normalizeURL.
  destruct (HasPrefix raw "http://") eqn:E1; simpl.
  { assert (H : begins_with "http://" raw) by by apply HasPrefix_begins_with.
    repeat split; auto. }
  destruct (HasPrefix raw "https://") eqn:E2; simpl.
  { assert (H : begins_with "https://" raw) by by apply HasPrefix_begins_with.
    repeat split; auto. }
  split; [by right|]. split.
  - intros Heq.
    apply (f_equal String.length) in Heq. simpl in Heq. lia.
  - intros [H|H]; apply HasPrefix_begins_with in H; congruence.
Qed.

(** ** The executor *)





Section ExecutorMore.
Variable cfg : Config.
Variable net : Net.
Variable url : string.
Variable start : Z.

Local Abbreviation R := (Cfg.Retries cfg).
Local Abbreviation loop := (retryLoop cfg net url start).

(** What the loop returns is decided by the attempt it returns from, and
    every attempt before that one failed. *)
Lemma retryLoop_decided n : forall attempt lastErr w,
  Z.of_nat n = R + 1 - attempt ->
  match loop n attempt lastErr w with
  | (inl r, w') =>
      attempt <= Retries r <= R /\
      decided_by cfg (outcome net (Retries r)) r /\
      (forall i, attempt <= i < Retries r -> fails (outcome net i)) /\
      Duration r = Since start w' /\ Timestamp r = clock w'
  | (inr le, w') =>
      forall i, attempt <= i < attempt + Z.of_nat n -> fails (outcome net i)
  end.
Proof.
  induction n as [|n IH]; intros attempt lastErr w Hn; simpl.
  - intros i Hi. lia.
  - destruct (outcome net attempt) as [err|err|code] eqn:Ho.
    + specialize (IH (attempt + 1) (Some err) (emit (EvAttempt attempt) w) ltac:(lia)).
      destruct (loop n _ _ _) as [[r|le] w'].
      * destruct IH as (? & ? & Hf & ? & ?). repeat split; [lia.. | done | | done | done].
        intros i Hi. destruct (Z.eq_dec i attempt) as [->|]; [by rewrite Ho|].
        apply Hf. lia.
      * intros i Hi. destruct (Z.eq_dec i attempt) as [->|]; [by rewrite Ho|].
        apply IH. lia.
    + destruct (Z.eqb_spec attempt R) as [->|Hne].
      * simpl. rewrite Ho. simpl. repeat split; try done; try (intros; lia).
      * specialize (IH (attempt + 1) (Some err)
                       (Sleep (backoff attempt)
                              (elapse (latency net attempt) (emit (EvAttempt attempt) w)))
                       ltac:(lia)).
        destruct (loop n _ _ _) as [[r|le] w'].
        -- destruct IH as (? & ? & Hf & ? & ?). repeat split; [lia.. | done | | done | done].
           intros i Hi. destruct (Z.eq_dec i attempt) as [->|]; [by rewrite Ho|].
           apply Hf. lia.
        -- intros i Hi. destruct (Z.eq_dec i attempt) as [->|]; [by rewrite Ho|].
           apply IH. lia.
    + simpl. rewrite Ho. simpl. repeat split; try done; try (intros; lia).
Qed.




End ExecutorMore.




Lemma decided_classified cfg a r : decided_by cfg a r -> classified r.
Proof.
  destruct a as [err|err|code]; simpl;
    [by intros (_ & _ & _ & ?); right | by intros (_ & _ & _ & ?); right |].
  intros (_ & _ & Hs). unfold classified. rewrite Hs.
  destruct (code >=? 400); [by right | by left].
Qed.

(** The attempt a check ended with decides its [Result]. *)
Lemma checkURL_result_decided_aux cfg net url w r w' :
  0 <= Cfg.Retries cfg ->
  checkURL cfg net url w = (Ok r, w') ->
  decided_by cfg (outcome net (Retries r)) r /\
  (forall i, 0 <= i < Retries r -> fails (outcome net i)).
Proof.
  intros HR. unfold checkURL.
  pose proof (retryLoop_bookkeeping cfg net url (clock w) (iterations cfg) 0 None w
                ltac:(unfold iterations; lia)) as Hbook.
  pose proof (retryLoop_decided cfg net url (clock w) (iterations cfg) 0 None w
                ltac:(unfold iterations; lia)) as Hdec.
  destruct (retryLoop _ _ _ _ _ _ _ _) as [[r0|le] w0].
  - intros [= -> ->]. by destruct Hdec as (_ & Hd & Hf & _).
  - destruct Hbook as [_ [(Hn & _)|(err & -> & Ho)]]; [unfold iterations in Hn; lia|].
    intros [= <- <-]. simpl. rewrite Ho. simpl. split; [done|].
    intros i Hi. apply Hdec. unfold iterations. lia.
Qed.








(** ** The scheduler *)

(** A checker whose result channel is closed and empty delivers nothing. *)
Lemma used_checker_step urls t net now s s' :
  closed (results (hc s)) = true /\ buf (results (hc s)) = [] /\
  allResults s = [] /\ closer s <> CDone /\
  Forall (fun w => w <> WRelease) (workers s) ->
  step urls t net now s = Some s' ->
  closed (results (hc s')) = true /\ buf (results (hc s')) = [] /\
  allResults s' = [] /\ closer s' <> CDone /\
  Forall (fun w => w <> WRelease) (workers s').
Proof.
  intros (Hcl & Hbuf & Hall & Hcd & Hws) Hstep.
  destruct s as [dl [cf ct sem res wgc] uc ws sd cl p all pan]. simpl in *.
  step_split Hstep; chan_inv; simpl in *; subst.
  all: try (exfalso; congruence).
  all: repeat split; try done; try congruence.
  all: try (apply Forall_app; split; [done | by repeat constructor]).
  all: try (by apply Forall_insert).
Qed.

(** X5.  A [HealthChecker] serves one call.  Once [CheckAll] has returned,
    the result channel of the checker is closed and empty, and in a second
    [CheckAll] on the same checker, whatever its URLs: no result is ever
    collected, so that the call can only return the empty list; no worker
    gets past sending its result; and the closer never closes the channel
    again. *)
Theorem used_checker_returns_nothing cfg urls h now s1 rs1 urls' now' s2 :
  0 <= Cfg.Concurrency cfg ->
  0 <= Cfg.Retries cfg ->
  NewHealthChecker (Some cfg) = Ok h ->
  reachable urls (CheckAll_init h now urls) s1 ->
  returned s1 = Some rs1 ->
  reachable urls' (CheckAll_init (hc s1) now' urls') s2 ->
  closed (results (hc s1)) = true /\ buf (results (hc s1)) = [] /\
  allResults s2 = [] /\
  (forall rs2, returned s2 = Some rs2 -> rs2 = []) /\
  closer s2 <> CDone /\
  Forall (fun w => w <> WRelease) (workers s2).
Proof.
  intros HC HR Hh Hreach1 Hret1 Hreach2.
  destruct (reachable_Shape cfg urls h now s1 Hh Hreach1)
    as [_ _ _ _ Hret _ _ (_ & Hrcl) _ _ _].
  unfold returned in Hret1. destruct (pc s1) eqn:Hpc; try done.
  destruct (Hret eq_refl) as [Hcd Hbuf]. rewrite Hcd in Hrcl. simpl in Hrcl.
  split; [done|]. split; [done|].
  assert (H2 : closed (results (hc s2)) = true /\ buf (results (hc s2)) = [] /\
               allResults s2 = [] /\ closer s2 <> CDone /\
               Forall (fun w => w <> WRelease) (workers s2)).
  { induction Hreach2 as [|s t net now2 s' _ IH Hstep].
    - unfold CheckAll_init. destruct (wg_Add _ _). simpl. repeat split; try done.
    - by eapply used_checker_step. }
  destruct H2 as (_ & _ & Hall & Hcl & Hws).
  repeat split; try done.
  intros rs2. unfold returned. destruct (pc s2); try done. by intros [= <-].
Qed.

Lemma used_checker_returns_nothing_witness :
  returned (run ["d.example"] (round_robin 30 2 (steady (Response 200)) 0)
               (CheckAll_init
                  (hc (run ["a.example"; "http://b.example"; "c"]
                           (round_robin 30 2 (steady (Response 200)) 0)
                           (CheckAll_init (fresh (pool 2 1)) 0
                                          ["a.example"; "http://b.example"; "c"])))
                  0 ["d.example"])) = Some [].
Proof.
  set (s1 := run ["a.example"; "http://b.example"; "c"]
                 (round_robin 30 2 (steady (Response 200)) 0)
                 (CheckAll_init (fresh (pool 2 1)) 0
                                ["a.example"; "http://b.example"; "c"])).
  set (s2 := run ["d.example"] (round_robin 30 2 (steady (Response 200)) 0)
                 (CheckAll_init (hc s1) 0 ["d.example"])).
  destruct (returned s2) as [rs2|] eqn:Hret2; [|vm_compute in Hret2; discriminate Hret2].
  f_equal.
  eapply (used_checker_returns_nothing
            (pool 2 1) ["a.example"; "http://b.example"; "c"] (fresh (pool 2 1)) 0 s1 _
            ["d.example"] 0 s2).
  - simpl. lia.
  - simpl. lia.
  - reflexivity.
  - apply run_reachable. constructor.
  - vm_compute. reflexivity.
  - apply run_reachable. constructor.
  - exact Hret2.
Defined.

(** In a second call the first result that is sent finds the channel
    closed: the call has returned the empty list and the process panics. *)
Example used_checker_panics :
  let s1 := run ["a.example"; "c"] (round_robin 30 2 (steady (Response 200)) 0)
                (CheckAll_init (fresh (pool 2 1)) 0 ["a.example"; "c"]) in
  let s2 := run ["d.example"] (round_robin 30 2 (steady (Response 200)) 0)
                (CheckAll_init (hc s1) 0 ["d.example"]) in
  length <$> returned s1 = Some 2%nat /\
  returned s2 = Some [] /\ panicked s2 = Some "send on closed channel".
Proof. vm_compute. repeat split. Qed.

Lemma all_WDone ws :
  sum_list_with finished ws = length ws -> Forall (fun w => w = WDone) ws.
Proof.
  induction ws as [|w ws IH]; [constructor|].
  pose proof (finished_le ws). destruct w; simpl; intros; try lia.
  constructor; [done | apply IH; lia].
Qed.

Lemma finished_pos ws i :
  ws !! i = Some WDone -> (0 < sum_list_with finished ws)%nat.
Proof.
  intros Hi. apply list_elem_of_lookup_2 in Hi.
  pose proof (sum_list_with_in WDone finished ws Hi). simpl in *. lia.
Qed.

(** X6.  The shutdown of a call is ordered, as long as the pool fits the
    32-bit counter of the wait group.  In every state of a call on a fresh
    checker with a [Concurrency] from 0 to [int32_max] (and [Retries >= 0]):
    the counter of the wait group is the number of workers that have not
    returned yet, so that it is never negative and never above [int32_max];
    a worker has returned only if the URL channel is closed and empty; and
    the result channel is closed only if all [Concurrency] workers have
    returned, so that no result is sent on a closed channel. *)
Theorem CheckAll_shutdown_order cfg urls h now s :
  0 <= Cfg.Concurrency cfg <= int32_max ->
  0 <= Cfg.Retries cfg ->
  NewHealthChecker (Some cfg) = Ok h ->
  reachable urls (CheckAll_init h now urls) s ->
  0 <= wg (hc s) <= int32_max /\
  wg (hc s) = Cfg.Concurrency cfg - Z.of_nat (sum_list_with finished (workers s)) /\
  (forall i, workers s !! i = Some WDone ->
     closed (urlChan s) = true /\ buf (urlChan s) = []) /\
  (closed (results (hc s)) = true ->
     Forall (fun w => w = WDone) (workers s) /\
     Z.of_nat (length (workers s)) = Cfg.Concurrency cfg) /\
  (forall i r, workers s !! i = Some (WSend r) -> closed (results (hc s)) = false).
Proof.
  intros [HC HC32] HR Hh Hreach.
  destruct (reachable_Inv cfg urls HC HC32 (or_introl HR) h now s Hh Hreach)
    as [_ _ Hpool _ Hcls _ Hwg _ _ (_ & Hrcl & Hrwg) _ Hdr _].
  pose proof (finished_le (workers s)) as Hfin.
  assert (Hlen : Z.of_nat (length (workers s)) <= Cfg.Concurrency cfg)
    by (destruct (pc s); lia).
  assert (Hclosed : closed (results (hc s)) = true ->
            Forall (fun w => w = WDone) (workers s) /\
            Z.of_nat (length (workers s)) = Cfg.Concurrency cfg).
  { intros Hc. rewrite Hrcl in Hc. destruct (closer s) eqn:Hcl; try done.
    specialize (Hrwg eq_refl). split; [apply all_WDone; lia | lia]. }
  split; [lia|]. split; [lia|]. split; [|split; [done|]].
  - intros i Hi. apply Hdr. by eapply finished_pos.
  - intros i r Hi. destruct (closed (results (hc s))) eqn:Hc; [|done].
    destruct (Hclosed eq_refl) as [Hall _].
    rewrite Forall_lookup in Hall. by specialize (Hall i _ Hi).
Qed.

Lemma CheckAll_shutdown_order_witness :
  Forall (fun w => w = WDone)
         (workers (run ["a.example"; "c"] (round_robin 30 2 (steady (Response 200)) 0)
                       (CheckAll_init (fresh (pool 2 1)) 0 ["a.example"; "c"]))).
Proof.
  apply (CheckAll_shutdown_order (pool 2 1) ["a.example"; "c"] (fresh (pool 2 1)) 0
           (run ["a.example"; "c"] (round_robin 30 2 (steady (Response 200)) 0)
                (CheckAll_init (fresh (pool 2 1)) 0 ["a.example"; "c"]))).
  - vm_compute. split; discriminate.
  - simpl. lia.
  - reflexivity.
  - apply run_reachable. constructor.
  - vm_compute. reflexivity.
Defined.

(** X7.  Two of the places where a goroutine could wait never make it wait.
    In every state of a call on a fresh checker (with [Retries >= 0]) in
    which no goroutine has panicked: a worker that is about to take a slot
    of the semaphore can take it at once,
    and a worker that is about to give its slot back can do so at once (the
    pool is as large as the semaphore); and the sender can always put its
    next URL on the URL channel, or close it (the channel holds as many URLs
    as the call was given). *)
Theorem CheckAll_gate_and_queue_never_block cfg urls h now s :
  0 <= Cfg.Concurrency cfg ->
  0 <= Cfg.Retries cfg ->
  NewHealthChecker (Some cfg) = Ok h ->
  reachable urls (CheckAll_init h now urls) s ->
  panicked s = None ->
  (forall i url net now',
     workers s !! i = Some (WAcquire url) ->
     exists s', step urls (TWorker i) net now' s = Some s' /\
                workers s' !! i = Some (WCheck url)) /\
  (forall i net now',
     workers s !! i = Some WRelease ->
     exists s', step urls (TWorker i) net now' s = Some s' /\
                workers s' !! i = Some WIdle) /\
  (forall rest net now',
     sender s = SSending rest ->
     exists s', step urls TSender net now' s = Some s' /\
                sender s' = match rest with [] => SDone | _ :: rest' => SSending rest' end).
Proof.
  intros HC HR Hh Hreach Hpan.
  destruct (reachable_Shape cfg urls h now s Hh Hreach)
    as [Hcfg Hpool _ _ _ (Hsem & Hsemcap & Hsemcl) (Hucap & Hucl) _ Hurls _ _].
  assert (Hlen : Z.of_nat (length (workers s)) <= Cfg.Concurrency cfg)
    by (destruct (pc s); lia).
  split; [|split].
  - intros i url net now' Hw. unfold step, step_worker. rewrite Hpan, Hw.
    destruct (worker_at (workers s) i _ Hw) as (l1 & l2 & Hws & Hins).
    pose proof (holds_slot_le l1). pose proof (holds_slot_le l2).
    destruct (send_ready (semaphore (hc s)) ()) as [c ->]; [done| |].
    + rewrite Hws in Hsem, Hlen. list_norm. lia.
    + eexists. split; [done|]. simpl. apply list_lookup_insert_eq. by eapply lookup_lt_Some.
  - intros i net now' Hw. unfold step, step_worker. rewrite Hpan, Hw.
    destruct (worker_at (workers s) i _ Hw) as (l1 & l2 & Hws & Hins).
    unfold recv. destruct (buf (semaphore (hc s))) as [|[] b] eqn:Hb.
    + rewrite Hws in Hsem. list_norm. simpl in Hsem. lia.
    + eexists. split; [done|]. simpl. apply list_lookup_insert_eq. by eapply lookup_lt_Some.
  - intros rest net now' Hsd. unfold step, step_sender. rewrite Hpan, Hsd.
    rewrite Hsd in Hucl, Hurls. simpl in Hucl.
    destruct rest as [|u rest].
    + unfold close. rewrite Hucl. eauto.
    + apply Permutation_length in Hurls. simpl in Hurls.
      rewrite !length_app, !length_map in Hurls.
      destruct (send_ready (urlChan s) (normalizeURL u)) as [c ->]; [done | lia | eauto].
Qed.

Lemma CheckAll_gate_and_queue_never_block_witness :
  exists s',
    step ["a.example"; "c"] TSender (steady (Response 200)) 0
         (run ["a.example"; "c"]
              [(TMain, steady (Response 200), 0); (TMain, steady (Response 200), 0);
               (TMain, steady (Response 200), 0)]
              (CheckAll_init (fresh (pool 2 1)) 0 ["a.example"; "c"])) = Some s' /\
    sender s' = SSending ["c"].
Proof.
  destruct (CheckAll_gate_and_queue_never_block
              (pool 2 1) ["a.example"; "c"] (fresh (pool 2 1)) 0
              (run ["a.example"; "c"]
                 [(TMain, steady (Response 200), 0); (TMain, steady (Response 200), 0);
                  (TMain, steady (Response 200), 0)]
                 (CheckAll_init (fresh (pool 2 1)) 0 ["a.example"; "c"])))
    as (_ & _ & Hsender).
  - simpl. lia.
  - simpl. lia.
  - reflexivity.
  - apply run_reachable. constructor.
  - vm_compute. reflexivity.
  - apply (Hsender ["a.example"; "c"]). vm_compute. reflexivity.
Defined.

Lemma checkURL_URL cfg net url w r :
  0 <= Cfg.Retries cfg -> fst (checkURL cfg net url w) = Ok r -> URL r = url.
Proof.
  intros HR Heq.
  destruct (checkURL_returns cfg net url w HR) as (r' & w' & Heq' & Hurl & _).
  rewrite Heq' in Heq. simpl in Heq. congruence.
Qed.

(** With one worker the URLs keep their order on their way through the
    call. *)
Lemma pipeline_step cfg urls s t net now s' :
  0 <= Cfg.Retries cfg ->
  Cfg.Concurrency cfg = 1 ->
  Inv cfg urls s ->
  pipeline urls s = map normalizeURL urls ->
  step urls t net now s = Some s' ->
  pipeline urls s' = map normalizeURL urls.
Proof.
  intros HR HC [Hcfg _ Hpool Hsnd _ _ _ _ _ _ _ _ _] Hord Hstep.
  destruct s as [dl [cf ct sem res wgc] uc ws sd cl p all pan].
  unfold pipeline in *. simpl in *. subst cf.
  assert (Hlen : (length ws <= 1)%nat) by (destruct p; lia).
  step_split Hstep; chan_inv; simpl in *.
  all: repeat match goal with
         | H : ?l !! _ = Some _ |- _ =>
             destruct l as [|? [|? ?]]; simpl in Hlen; [done| |lia];
             apply list_lookup_singleton_Some in H as [-> ->]
         end.
  all: try match goal with
         | H : fst (checkURL _ _ _ _) = Ok _ |- _ => apply checkURL_URL in H; [|done]
         end.
  all: simpl in *; subst; use_bufs; rewrite ?map_app, ?flat_map_app in *; simpl in *;
    rewrite <- ?app_assoc in *; simpl in *; try done.
  all: by destruct sd.
Qed.

(** X8.  With [Concurrency = 1] (and [Retries >= 0]) the results come in the
    order of the input: at every moment the URLs of the results collected so
    far are the first normalised input URLs, in order, and the list
    [CheckAll] returns has the normalised input URLs in input order. *)
Theorem CheckAll_one_worker_keeps_order cfg urls h now s :
  Cfg.Concurrency cfg = 1 ->
  0 <= Cfg.Retries cfg ->
  NewHealthChecker (Some cfg) = Ok h ->
  reachable urls (CheckAll_init h now urls) s ->
  (exists rest, map normalizeURL urls = map URL (allResults s) ++ rest) /\
  (forall rs, returned s = Some rs -> map URL rs = map normalizeURL urls).
Proof.
  intros HC HR Hh Hreach.
  assert (Hord : pipeline urls s = map normalizeURL urls).
  { induction Hreach as [|s t net now' s' Hreach IH Hstep].
    - apply NewHealthChecker_fresh in Hh. subst h.
      unfold pipeline. simpl. done.
    - eapply pipeline_step; [done.. | | exact IH | exact Hstep].
      eapply reachable_Inv; [rewrite HC; by vm_compute | rewrite HC; by vm_compute | by left | done..]. }
  split; [eexists; by rewrite <- Hord|].
  intros rs Hrs.
  assert (Hinv : Inv cfg urls s)
    by (eapply reachable_Inv; [rewrite HC; by vm_compute | rewrite HC; by vm_compute | by left | done..]).
  destruct Hinv as [_ _ Hpool _ _ Hret Hwg _ (_ & Hucl) (_ & _ & Hrwg) _ Hdr _].
  unfold returned in Hrs. destruct (pc s) eqn:Hpc; try done. injection Hrs as <-.
  destruct (Hret eq_refl) as [Hcl Hres]. specialize (Hrwg Hcl). rewrite Hrwg in Hwg.
  destruct Hdr as [Huc Hbuf]; [lia|].
  rewrite Hucl in Huc. destruct (sender s) eqn:Hsd; try done.
  unfold pipeline in Hord. rewrite Hsd, Hbuf, Hres, all_finished in Hord by lia.
  simpl in Hord. by rewrite !app_nil_r in Hord.
Qed.

Lemma CheckAll_one_worker_keeps_order_witness :
  exists rs,
    returned (run ["a.example"; "http://b.example"; "c"]
                  (round_robin 40 1 (steady (Response 200)) 0)
                  (CheckAll_init (fresh (pool 1 1)) 0
                                 ["a.example"; "http://b.example"; "c"])) = Some rs /\
    map URL rs = ["https://a.example"; "http://b.example"; "https://c"].
Proof.
  eexists. split; [vm_compute; reflexivity|].
  apply (CheckAll_one_worker_keeps_order
           (pool 1 1) ["a.example"; "http://b.example"; "c"] (fresh (pool 1 1)) 0
           (run ["a.example"; "http://b.example"; "c"]
                (round_robin 40 1 (steady (Response 200)) 0)
                (CheckAll_init (fresh (pool 1 1)) 0
                               ["a.example"; "http://b.example"; "c"]))).
  - reflexivity.
  - simpl. lia.
  - reflexivity.
  - apply run_reachable. constructor.
  - vm_compute. reflexivity.
Defined.

(** With two workers the order of the results is the order in which the
    checks end. *)
Example two_workers_may_reorder :
  map URL (allResults
             (run ["a.example"; "b.example"]
                  (map (fun t => (t, steady (Response 200), 0))
                       [TMain; TMain; TMain; TMain; TSender; TSender; TSender;
                        TWorker 0; TWorker 1;
                        TWorker 1; TWorker 1; TWorker 1;
                        TWorker 0; TWorker 0; TWorker 0;
                        TMain; TMain])
                  (CheckAll_init (fresh (pool 2 1)) 0 ["a.example"; "b.example"]))) =
  ["https://b.example"; "https://a.example"].
Proof. vm_compute. reflexivity. Qed.

(** Every result in a call comes from a check of one of its URLs. *)
Lemma checked_step cfg urls s t net now s' :
  Shape cfg urls s ->
  Forall (checked cfg urls) (results_of s) ->
  step urls t net now s = Some s' ->
  Forall (checked cfg urls) (results_of s').
Proof.
  intros [Hcfg _ _ _ _ _ _ _ Hurls _ _] HQ Hstep.
  destruct s as [dl [cf ct sem res wgc] uc ws sd cl p all pan].
  unfold results_of in *. simpl in *. subst cf.
  step_split Hstep; chan_inv; simpl in *.
  all: repeat match goal with
         | H : ?l !! ?i = Some ?w |- _ =>
             let l1 := fresh "l1" in let l2 := fresh "l2" in let Hins := fresh "Hins" in
             destruct (worker_at l i w H) as (l1 & l2 & -> & Hins); clear H;
             rewrite ?Hins in *
         end.
  all: use_bufs; rewrite ?flat_map_app in *; simpl in *.
  all: repeat first [rewrite Forall_app in * | rewrite Forall_cons in *
                    | rewrite Forall_nil in *].
  all: try (by intuition).
  (* the check that ends: its URL is one of the call's *)
  match goal with
  | H : fst (checkURL _ ?n ?u (world0 ?t)) = Ok ?r |- _ =>
      assert (Hr : checked cfg urls r);
      [exists n, u, t; split; [|exact H]|by intuition]
  end.
  rewrite <- Hurls. rewrite !elem_of_app. simpl. rewrite elem_of_cons. tauto.
Qed.

Lemma checked_reachable cfg urls h now s :
  0 <= Cfg.Concurrency cfg ->
  0 <= Cfg.Retries cfg ->
  NewHealthChecker (Some cfg) = Ok h ->
  reachable urls (CheckAll_init h now urls) s ->
  Forall (checked cfg urls) (results_of s).
Proof.
  intros HC HR Hh Hreach.
  induction Hreach as [|s t net now' s' Hreach IH Hstep].
  - apply NewHealthChecker_fresh in Hh. subst h. unfold results_of, CheckAll_init.
    destruct (wg_Add _ _). simpl. constructor.
  - eapply checked_step; [|exact IH|exact Hstep]. by eapply reachable_Shape.
Qed.

Lemma checked_facts cfg urls r :
  0 <= Cfg.Retries cfg ->
  checked cfg urls r ->
  classified r /\ 0 <= Retries r <= Cfg.Retries cfg /\
  URL r ∈ map normalizeURL urls /\
  (begins_with "http://" (URL r) \/ begins_with "https://" (URL r)).
Proof.
  intros HR (net & url & now & Hin & Hck).
  destruct (checkURL_returns cfg net url (world0 now) HR) as (r' & w' & Heq & Hurl & _ & Hrange).
  rewrite Heq in Hck. simpl in Hck. injection Hck as ->.
  destruct (checkURL_result_decided_aux cfg net url (world0 now) r w' HR Heq) as [Hd _].
  split; [by eapply decided_classified|]. split; [done|]. rewrite Hurl.
  split; [done|].
  apply list_elem_of_fmap in Hin as (raw & -> & _). apply normalizeURL_begins.
Qed.

(** X9.  Every result a call has collected (and so every result [CheckAll]
    returns) is what [checkURL] returned, under the configuration of the
    call, for the normalised form of one of the input URLs.  It therefore
    has status success or error, a [Retries] field between 0 and the
    configured [Retries], and a URL that is one of the normalised input URLs
    and begins with http:// or https://. *)
Theorem CheckAll_results_are_checks cfg urls h now s r :
  0 <= Cfg.Concurrency cfg ->
  0 <= Cfg.Retries cfg ->
  NewHealthChecker (Some cfg) = Ok h ->
  reachable urls (CheckAll_init h now urls) s ->
  r ∈ allResults s ->
  checked cfg urls r /\
  classified r /\ 0 <= Retries r <= Cfg.Retries cfg /\
  URL r ∈ map normalizeURL urls /\
  (begins_with "http://" (URL r) \/ begins_with "https://" (URL r)).
Proof.
  intros HC HR Hh Hreach Hin.
  pose proof (checked_reachable cfg urls h now s HC HR Hh Hreach) as HQ.
  rewrite Forall_forall in HQ.
  assert (Hr : checked cfg urls r).
  { apply HQ. unfold results_of. rewrite elem_of_app. by left. }
  split; [done|]. by apply checked_facts.
Qed.

Lemma CheckAll_results_are_checks_witness :
  classified {| URL := "https://c"; Status := "error"; StatusCode := 404;
                Error := ""; Duration := 0; Timestamp := 0; Retries := 0 |}.
Proof.
  apply (CheckAll_results_are_checks
           (pool 2 1) ["a.example"; "http://b.example"; "c"] (fresh (pool 2 1)) 0
           (run ["a.example"; "http://b.example"; "c"]
                (round_robin 30 2 (steady (Response 404)) 0)
                (CheckAll_init (fresh (pool 2 1)) 0
                               ["a.example"; "http://b.example"; "c"]))).
  - simpl. lia.
  - simpl. lia.
  - reflexivity.
  - apply run_reachable. constructor.
  - vm_compute. do 2 right. left.
Defined.

(** ** Statistics and renderers *)

Lemma tally_counts rs : forall total ok bad,
  exists total',
    fold_left tally rs (total, ok, bad) =
    (total', ok + successes rs, bad + (Z.of_nat (length rs) - successes rs)).
Proof.
  unfold successes.
  induction rs as [|r rs IH]; intros total ok bad.
  - exists total. simpl. rewrite !pair_equal_spec. repeat split; lia.
  - cbn [fold_left tally List.filter].
    destruct (String.eqb (Status r) "success").
    + destruct (IH (wrap64 (total + Duration r)) (ok + 1) bad) as [total' ->].
      exists total'. cbn [length]. rewrite !Nat2Z.inj_succ, !pair_equal_spec.
      repeat split; lia.
    + destruct (IH (wrap64 (total + Duration r)) ok (bad + 1)) as [total' ->].
      exists total'. cbn [length]. rewrite !Nat2Z.inj_succ, !pair_equal_spec.
      repeat split; lia.
Qed.

Lemma PrintStats_counts rs :
  rs <> [] ->
  exists st, PrintStats rs = Some st /\
    checks st = Z.of_nat (length rs) /\
    successCount st = successes rs /\
    errorCount st = Z.of_nat (length rs) - successes rs.
Proof.
  intros Hne. unfold PrintStats. destruct rs as [|r rs]; [done|].
  change (length (r :: rs) =? 0)%nat with false. cbv iota.
  destruct (tally_counts (r :: rs) 0 0 0) as [total' ->].
  eexists. split; [done|]. simpl. repeat split; lia.
Qed.

Lemma red_rows_errors rs : red_rows (map table_row rs) = errors rs.
Proof.
  unfold red_rows, errors. f_equal.
  induction rs as [|r rs IH]; [done|]. simpl.
  destruct (String.eqb (Status r) "error"); simpl; by rewrite IH.
Qed.

Lemma error_icons_errors rs : error_icons (PrintSimple rs) = errors rs.
Proof.
  unfold error_icons, errors, PrintSimple. f_equal.
  induction rs as [|r rs IH]; [done|].
  cbn [flat_map]. rewrite List.filter_app, length_app, IH.
  unfold simple_lines. cbn [List.filter].
  destruct (String.eqb (Status r) "error"), (String.eqb (Error r) ""); reflexivity.
Qed.

(** The statuses that are neither success nor error are what separates the
    error count of the statistics from the errors the renderers show. *)
Lemma errors_le_not_success rs :
  errors rs <= Z.of_nat (length rs) - successes rs /\
  (errors rs = Z.of_nat (length rs) - successes rs <-> Forall classified rs).
Proof.
  unfold errors, successes, classified.
  induction rs as [|r rs [IH1 IH2]]; [by split; [|split; [constructor|]]|].
  cbn [List.filter length]. rewrite Forall_cons.
  pose proof (List.filter_length_le (fun r => String.eqb (Status r) "error") rs).
  pose proof (List.filter_length_le (fun r => String.eqb (Status r) "success") rs).
  destruct (String.eqb_spec (Status r) "error") as [He|He];
    destruct (String.eqb_spec (Status r) "success") as [Hs|Hs];
    cbn [length]; rewrite ?Nat2Z.inj_succ; try congruence.
  - split; [lia|]. rewrite <- IH2. split; [intros; split; [by right | lia] | intros [_ ?]; lia].
  - split; [lia|]. rewrite <- IH2. split; [intros; split; [by left | lia] | intros [_ ?]; lia].
  - split; [lia|]. split; [lia | intros [[?|?] _]; done].
Qed.

(** X10.  The renderers and the statistics count errors differently.  For
    every non-empty list of results, [PrintTable] prints one row per result
    and the number of rows it colours red is the number of summary lines
    [PrintSimple] marks with the error icon, namely the number of results
    whose status is "error"; [PrintStats] counts as an error every result
    whose status is not "success".  The red rows are never more than the
    error count, and they are as many exactly when every status is success
    or error. *)
Theorem renderers_and_statistics_agree_on_classified rs :
  rs <> [] ->
  exists st hdr rows,
    PrintStats rs = Some st /\ PrintTable rs = Some (hdr, rows) /\
    length rows = length rs /\
    successCount st + errorCount st = checks st /\
    red_rows rows = errors rs /\
    error_icons (PrintSimple rs) = errors rs /\
    red_rows rows <= errorCount st /\
    (red_rows rows = errorCount st <-> Forall classified rs).
Proof.
  intros Hne.
  destruct (PrintStats_counts rs Hne) as (st & Hst & Hck & Hok & Hbad).
  exists st, ["URL"; "Status"; "Code"; "Duration"; "Retries"], (map table_row rs).
  destruct (errors_le_not_success rs) as [Hle Hiff].
  split; [done|]. split.
  { unfold PrintTable. by destruct rs. }
  split; [by rewrite length_map|]. split; [lia|].
  rewrite red_rows_errors, error_icons_errors, Hbad. done.
Qed.

Lemma renderers_and_statistics_agree_on_classified_witness :
  exists st hdr rows,
    PrintStats [mkResult "a" "success" 200 "" 5 0 0; mkResult "b" "timeout" 0 "late" 7 0 1] =
      Some st /\
    PrintTable [mkResult "a" "success" 200 "" 5 0 0; mkResult "b" "timeout" 0 "late" 7 0 1] =
      Some (hdr, rows) /\
    red_rows rows <= errorCount st.
Proof.
  destruct (renderers_and_statistics_agree_on_classified
              [mkResult "a" "success" 200 "" 5 0 0; mkResult "b" "timeout" 0 "late" 7 0 1])
    as (st & hdr & rows & Hst & Htbl & _ & _ & _ & _ & Hle & _).
  - discriminate.
  - exists st, hdr, rows. split; [exact Hst|]. split; [exact Htbl | exact Hle].
Defined.

(** A status that is neither success nor error, such as the "timeout" of the
    comment on [Result.Status], is green in the table, has the success icon
    in the simple format, and is an error in the statistics. *)
Example timeout_status_is_rendered_as_success :
  let rs := [mkResult "b" "timeout" 0 "late" 7 0 1] in
  PrintTable rs = Some (["URL"; "Status"; "Code"; "Duration"; "Retries"],
                        [mkRow "b" (mkStatusText FgGreen "timeout" None) 0 0 1]) /\
  PrintSimple rs = [Summary icon_ok "b" "timeout" 0; ErrorLine "late"] /\
  (errorCount <$> PrintStats rs) = Some 1.
Proof. repeat split. Qed.

(** X11.  From the command line to the report.  For a non-empty list of
    URLs, [-concurrent] from 1 to [int32_max] and [-retries] at least 0,
    [main] builds the
    configuration from its flags and the checker is built without a panic;
    whatever list [CheckAll] then returns, the statistics are printed and
    report as many checks as URLs were given, the successes and the errors
    adding up to that number; the table has one row per URL; and its red
    rows, the error icons of the simple format and the error count of the
    statistics are the same number. *)
Theorem main_report_is_consistent urls timeout concurrent retries :
  urls <> [] -> 0 < concurrent <= int32_max -> 0 <= retries ->
  exists cfg h,
    main urls timeout concurrent retries = RunChecks cfg urls /\
    Cfg.Concurrency cfg = concurrent /\ Cfg.Retries cfg = retries /\
    Cfg.Timeout cfg = timeout /\
    NewHealthChecker (Some cfg) = Ok h /\
    forall now s rs,
      reachable urls (CheckAll_init h now urls) s ->
      returned s = Some rs ->
      exists st hdr rows,
        PrintStats rs = Some st /\
        checks st = Z.of_nat (length urls) /\
        successCount st + errorCount st = Z.of_nat (length urls) /\
        PrintTable rs = Some (hdr, rows) /\
        length rows = length urls /\
        red_rows rows = errorCount st /\
        error_icons (PrintSimple rs) = errorCount st.
Proof.
  intros Hne [HC HC32] HR.
  set (cfg := {| Cfg.Timeout := timeout; Cfg.Concurrency := concurrent;
                 Cfg.Retries := retries; Cfg.UserAgent := "HealthChecker/1.0" |}).
  assert (Hh : NewHealthChecker (Some cfg) = Ok (fresh cfg)).
  { unfold NewHealthChecker. simpl. by destruct (Z.ltb_spec concurrent 0); [lia|]. }
  exists cfg, (fresh cfg).
  split; [by destruct urls|]. split; [done|]. split; [done|]. split; [done|].
  split; [done|].
  intros now s rs Hreach Hrs.
  assert (Hinv : Inv cfg urls s)
    by (eapply reachable_Inv; [simpl; lia | done | by left | done..]).
  destruct (Inv_returned cfg urls s rs Hinv Hrs) as [_ Hperm].
  specialize (Hperm HC). apply Permutation_length in Hperm.
  rewrite !length_map in Hperm.
  assert (Hrs_ne : rs <> []) by (intros ->; by destruct urls).
  assert (Hcl : Forall classified rs).
  { pose proof (checked_reachable cfg urls (fresh cfg) now s ltac:(simpl; lia) HR Hh Hreach)
      as HQ.
    unfold results_of in HQ. apply Forall_app in HQ as [HQ _].
    unfold returned in Hrs. destruct (pc s); try done. injection Hrs as <-.
    eapply Forall_impl; [exact HQ|]. intros r Hr.
    by apply (checked_facts cfg urls r HR). }
  destruct (PrintStats_counts rs Hrs_ne) as (st & Hst & Hck & Hok & Hbad).
  destruct (errors_le_not_success rs) as [_ Hiff].
  apply Hiff in Hcl.
  exists st, ["URL"; "Status"; "Code"; "Duration"; "Retries"], (map table_row rs).
  split; [done|]. split; [lia|]. split; [lia|]. split.
  { unfold PrintTable. by destruct rs. }
  split; [by rewrite length_map|].
  rewrite red_rows_errors, error_icons_errors. lia.
Qed.

Lemma main_report_is_consistent_witness :
  exists cfg h,
    main ["a.example"; "c"] (10 * Second) 2 1 = RunChecks cfg ["a.example"; "c"] /\
    NewHealthChecker (Some cfg) = Ok h.
Proof.
  destruct (main_report_is_consistent ["a.example"; "c"] (10 * Second) 2 1)
    as (cfg & h & Hmain & _ & _ & _ & Hh & _).
  - discriminate.
  - vm_compute. split; [reflexivity | discriminate].
  - lia.
  - exists cfg, h. split; [exact Hmain | exact Hh].
Defined.

(** X12.  At every moment of a call on a fresh checker (with [Retries >= 0])
    every input URL is in exactly one place: still with the sender, on the
    URL channel, with a worker (as a URL or as the result of its check), on
    the result channel, or collected.  So the results collected so far never
    outnumber the URLs, and their URLs are, with multiplicity, among the
    normalised input URLs. *)
Theorem CheckAll_conserves_urls cfg urls h now s :
  0 <= Cfg.Concurrency cfg ->
  0 <= Cfg.Retries cfg ->
  NewHealthChecker (Some cfg) = Ok h ->
  reachable urls (CheckAll_init h now urls) s ->
  pending urls (sender s) ++ buf (urlChan s) ++ flat_map in_hand (workers s) ++
    map URL (buf (results (hc s))) ++ map URL (allResults s)
    ≡ₚ map normalizeURL urls /\
  (length (allResults s) <= length urls)%nat /\
  map URL (allResults s) ⊆+ map normalizeURL urls.
Proof.
  intros HC HR Hh Hreach.
  destruct (reachable_Shape cfg urls h now s Hh Hreach)
    as [_ _ _ _ _ _ _ _ Hurls _ _].
  split; [done|].
  assert (Hsub : map URL (allResults s) ⊆+ map normalizeURL urls).
  { rewrite <- Hurls. rewrite !app_assoc. apply submseteq_inserts_l. done. }
  split; [|done].
  apply submseteq_length in Hsub. by rewrite !length_map in Hsub.
Qed.

Lemma CheckAll_conserves_urls_witness :
  (length (allResults (run ["a.example"; "c"] (round_robin 4 2 (steady (Response 200)) 0)
                           (CheckAll_init (fresh (pool 2 1)) 0 ["a.example"; "c"]))) <= 2)%nat.
Proof.
  apply (CheckAll_conserves_urls (pool 2 1) ["a.example"; "c"] (fresh (pool 2 1)) 0
           (run ["a.example"; "c"] (round_robin 4 2 (steady (Response 200)) 0)
                (CheckAll_init (fresh (pool 2 1)) 0 ["a.example"; "c"]))).
  - simpl. lia.
  - simpl. lia.
  - reflexivity.
  - apply run_reachable. constructor.
Defined.
